(** * Seam carving (croppy, [index.js]): a shallow embedding and its properties

    The first part embeds the program: the numbers it computes with, its
    arrays of arrays, the queue of [pathfind] and its sort, then [pathfind],
    [getEnergyMatrix], [carveSeam] and [carve], the last two over a store of
    image objects.  The second part states and proves the properties:
    the shape of a seam, termination, reachability of the last row,
    minimality, the tie-breaking rule, the removal of a seam from the
    buffer, the failures of a step and the number of steps of the loop. *)

From Stdlib Require Import ZArith QArith Qround Lia List Permutation Sorted.
From stdpp Require Import base list.

Local Open Scope nat_scope.

(** ** Numbers *)

(** The numbers the program computes with.  Pixel samples are integers and
    the program only adds them, so a finite number is an integer; the two
    other values the program can meet are [Infinity], with which the
    distance table is filled, and [NaN], which is what arithmetic on the
    [undefined] of an out-of-range array read gives. *)
Inductive num : Type :=
  | Fin (z : Z)
  | Infinity
  | NaN.

(** [a + b] *)
Definition num_add (a b : num) : num :=
  match a, b with
  | Fin x, Fin y => Fin (x + y)
  | NaN, _ | _, NaN => NaN
  | _, _ => Infinity
  end.

(** [a < b]; any comparison with [NaN] is false. *)
Definition num_lt (a b : num) : bool :=
  match a, b with
  | Fin x, Fin y => (x <? y)%Z
  | Fin _, Infinity => true
  | _, _ => false
  end.

(** [a - b > 0], the only use the sort makes of the comparator
    [(a, b) => a.distance - b.distance]: a [NaN] difference counts as 0. *)
Definition num_sub_pos (a b : num) : bool :=
  match a, b with
  | Fin x, Fin y => (y <? x)%Z
  | Infinity, Fin _ => true
  | _, _ => false
  end.

Definition is_fin (a : num) : Prop := exists z, a = Fin z.

(** ** Arrays of arrays *)

(** [g[r][c]], with [d] standing for what the program makes of [undefined]. *)
Definition at2 {A} (d : A) (g : list (list A)) (r c : nat) : A :=
  default d (g !! r ≫= (.!! c)).

(** [g[r][c] = x].  Every such assignment of the program is to an existing
    row; the one assignment past the end of a row ([distances[0][0]] and
    [visited[0][0]] when the grid has no column) would extend the row in
    JavaScript and that cell is never read again; here it leaves the row
    unchanged. *)
Definition set2 {A} (g : list (list A)) (r c : nat) (x : A) : list (list A) :=
  alter (<[c := x]>) r g.

(** [[...Array(rows)].map(() => [...Array(cols)].fill(x))] *)
Definition fill2 {A} (rows cols : nat) (x : A) : list (list A) :=
  replicate rows (replicate cols x).

(** ** The frontier *)

Record entry : Type := Entry { row : nat; col : nat; distance : num }.

(** [queue.sort((a, b) => a.distance - b.distance)]: the sort is stable, so
    an element moves behind exactly those it is strictly greater than. *)
Fixpoint sort_insert (x : entry) (l : list entry) : list entry :=
  match l with
  | [] => [x]
  | y :: l' =>
      if num_sub_pos (distance x) (distance y) then y :: sort_insert x l'
      else x :: y :: l'
  end.

Fixpoint sort (q : list entry) : list entry :=
  match q with
  | [] => []
  | x :: q' => sort_insert x (sort q')
  end.

(** ** pathfind *)

Inductive exn : Type := TypeError | RangeError.

(** What a call comes to: a value, an exception, or, for the model only, the
    end of the fuel given to a loop (shown below never to happen). *)
Inductive completion (A : Type) : Type :=
  | Ret (a : A)
  | Throw (e : exn)
  | OutOfFuel.
Arguments Ret {A} a.
Arguments Throw {A} e.
Arguments OutOfFuel {A}.

Definition coord : Type := nat * nat.

Record state : Type := State {
  distances : list (list num);
  visited : list (list bool);
  previous : list (list (option coord));
  queue : list entry
}.

Section Pathfind.
Variable matrix : list (list num).
Variables rows cols : nat.

(** The body of [for (let j = -1; j <= 1; j++)] for one [j]. *)
Definition relax (r c : nat) (d : num) (st : state) (j : Z) : state :=
  if (j =? 0)%Z then st else
  let newRow := (Z.of_nat r + 1)%Z in
  let newCol := (Z.of_nat c + j)%Z in
  if (newRow <? 0)%Z || (newRow >=? Z.of_nat rows)%Z
     || (newCol <? 0)%Z || (newCol >=? Z.of_nat cols)%Z then st else
  let nr := Z.to_nat newRow in
  let nc := Z.to_nat newCol in
  let newDistance := num_add d (at2 NaN matrix nr nc) in
  if num_lt newDistance (at2 NaN (distances st) nr nc) then
    {| distances := set2 (distances st) nr nc newDistance;
       visited := visited st;
       previous := set2 (previous st) nr nc (Some (r, c));
       queue := queue st ++ [Entry nr nc newDistance] |}
  else st.

Definition relax_all (r c : nat) (d : num) (st : state) : state :=
  foldl (relax r c d) st [-1; 0; 1]%Z.

(** [while (current) { path.unshift(...); current = previous[...][...] }] *)
Fixpoint trace (fuel : nat) (prev : list (list (option coord)))
    (current : option coord) (path : list coord) : completion (list coord) :=
  match current with
  | None => Ret path
  | Some (r, c) =>
      match fuel with
      | O => OutOfFuel
      | S fuel' => trace fuel' prev (at2 None prev r c) ((r, c) :: path)
      end
  end.

(** [while (queue.length) { ... }]; falling out of the loop returns
    [undefined], here [Ret None]. *)
Fixpoint search (fuel : nat) (st : state) : completion (option (list coord)) :=
  match fuel with
  | O => OutOfFuel
  | S fuel' =>
      match sort (queue st) with
      | [] => Ret None
      | e :: q =>
          let '(Entry r c d) := e in
          if at2 false (visited st) r c then
            search fuel' {| distances := distances st; visited := visited st;
                            previous := previous st; queue := q |}
          else
            let st1 := {| distances := distances st;
                          visited := set2 (visited st) r c true;
                          previous := previous st; queue := q |} in
            if r =? rows - 1 then
              match trace rows (previous st1) (at2 None (previous st1) r c) [(r, c)] with
              | Ret path => Ret (Some path)
              | Throw e => Throw e
              | OutOfFuel => OutOfFuel
              end
            else search fuel' (relax_all r c d st1)
      end
  end.

Definition startCol : nat := cols / 2.

Definition init : state :=
  let d0 := at2 NaN matrix 0 startCol in
  {| distances := set2 (fill2 rows cols Infinity) 0 startCol d0;
     visited := fill2 rows cols false;
     previous := fill2 rows cols None;
     queue := [Entry 0 startCol d0] |}.
End Pathfind.

(** [matrix[0].length] throws when the matrix has no row. *)
Definition pathfind (matrix : list (list num)) : completion (option (list coord)) :=
  match matrix with
  | [] => Throw TypeError
  | row0 :: _ =>
      let rows := length matrix in
      let cols := length row0 in
      search matrix rows cols (2 * rows * cols + 2) (init matrix rows cols)
  end.

(** ** getEnergyMatrix *)

(** An image object: the pixel buffer ([data], four samples per pixel, row
    after row) and the two dimensions, which are JavaScript numbers. *)
Record Image : Type := { data : list Z; width : Z; height : Z }.

(** [sobelData[i]] read as a number: [undefined] past the end. *)
Definition sample (sobelData : list Z) (i : Z) : num :=
  if (i <? 0)%Z then NaN
  else match sobelData !! Z.to_nat i with
       | Some z => Fin z
       | None => NaN
       end.

(** The body of the inner loop: [matrix[y][x] = s[o] + s[o + 1] + s[o + 2]]. *)
Definition energy_cell (sobelData : list Z) (w : Z) (y : nat)
    (matrix : list (list num)) (x : nat) : list (list num) :=
  let vOffset := (Z.of_nat y * w * 4)%Z in
  let hOffset := (Z.of_nat x * 4)%Z in
  let offset := (vOffset + hOffset)%Z in
  set2 matrix y x
    (num_add (num_add (sample sobelData offset) (sample sobelData (offset + 1)))
             (sample sobelData (offset + 2))).

(** [Array(n)] throws a [RangeError] for a negative [n] (the upper limit
    on array lengths is not modelled); the inner [Array(image.width)] is
    evaluated once per row, so not at all when there is no row. *)
Definition getEnergyMatrix (sobelData : list Z) (image : Image)
    : completion (list (list num)) :=
  if (height image <? 0)%Z then Throw RangeError
  else if (0 <? height image)%Z && (width image <? 0)%Z then Throw RangeError
  else
    let h := Z.to_nat (height image) in
    let w := Z.to_nat (width image) in
    let matrix := fill2 h w (Fin 0) in
    Ret (foldl (fun m y => foldl (energy_cell sobelData (width image) y) m (seq 0 w))
               matrix (seq 0 h)).

(** ** carveSeam and carve *)

(** [newData.splice(start, deleteCount)], as the array it leaves. *)
Definition splice {A} (l : list A) (start deleteCount : Z) : list A :=
  let len := Z.of_nat (length l) in
  let s := if (start <? 0)%Z then Z.max (len + start) 0 else Z.min start len in
  let dc := Z.min (Z.max deleteCount 0) (len - s) in
  take (Z.to_nat s) l ++ drop (Z.to_nat (s + dc)) l.

(** The flat offset of a seam entry in a buffer of the given width. *)
Definition seam_offset (w : Z) (coords : coord) : Z :=
  let vOffset := (Z.of_nat (fst coords) * w * 4)%Z in
  let hOffset := (Z.of_nat (snd coords) * 4)%Z in
  (vOffset + hOffset)%Z.

(** [for (let i = path.length - 1; i >= 0; i--) newData.splice(offset, 4)]:
    the last entry of the path is spliced out first. *)
Definition removeSeam (newData : list Z) (w : Z) (path : list coord) : list Z :=
  foldr (fun coords newData => splice newData (seam_offset w coords) 4) newData path.

(** Image objects live in a store and are passed by reference: [carveSeam]
    assigns to the fields of the object it is given and returns that same
    object. *)
Definition ref : Type := nat.
Definition store : Type := list Image.

Definition Qlt_bool (a b : Q) : bool := negb (Qle_bool b a).

Section Carve.
(** [image.sobelFilter().data], the gradient filter of the image library. *)
Variable sobelFilter : Image -> list Z.

Definition carveSeam (σ : store) (image : ref) : completion ref * store :=
  match σ !! image with
  | None => (Throw TypeError, σ)
  | Some img =>
      match getEnergyMatrix (sobelFilter img) img with
      | Ret energyMap =>
          match pathfind energyMap with
          | Ret (Some path) =>
              let newData := removeSeam (data img) (width img) path in
              (Ret image,
               <[image := {| data := newData; width := (width img - 1)%Z;
                             height := height img |}]> σ)
          | Ret None => (Throw TypeError, σ) (* [path.length] of [undefined] *)
          | Throw e => (Throw e, σ)
          | OutOfFuel => (OutOfFuel, σ)
          end
      | Throw e => (Throw e, σ)
      | OutOfFuel => (OutOfFuel, σ)
      end
  end.

(** The loop of [carve].  [image] and [result] are the two variables of
    the source; [amount] is the percentage and [amount / 100] is taken
    exactly.  The writes to the page and the pause between two steps are
    left out.  The third component counts the calls of [carveSeam]. *)
Fixpoint carve_loop (fuel : nat) (σ : store) (image result : ref)
    (amount : Q) (i : Z) (calls : nat) : completion ref * store * nat :=
  match fuel with
  | O => (OutOfFuel, σ, calls)
  | S fuel' =>
      match σ !! image with
      | None => (Throw TypeError, σ, calls)
      | Some img =>
          if Qlt_bool (inject_Z i) (inject_Z (width img) * (amount / 100))%Q then
            match carveSeam σ result with
            | (Ret result', σ') =>
                carve_loop fuel' σ' image result' amount (i + 1)%Z (S calls)
            | (r, σ') => (r, σ', S calls)
            end
          else (Ret result, σ, calls)
      end
  end.

(** [var result = image]: both variables name the loaded image object. *)
Definition carve (σ : store) (image : ref) (amount : Q) : completion ref * store * nat :=
  let result := image in
  let fuel := match σ !! image with
              | Some img => Z.to_nat (width img) + 3
              | None => 1
              end in
  carve_loop fuel σ image result amount 0%Z 0.
End Carve.

(** * Properties *)

(** ** Arrays of arrays *)

Section ArrayFacts.
Context {A : Type}.
Implicit Types (g : list (list A)) (x d : A).

Definition lookup2 g (r c : nat) : option A := g !! r ≫= (.!! c).

(** [g] has [rows] rows of [cols] cells each. *)
Definition shape (rows cols : nat) g : Prop :=
  length g = rows ∧ Forall (λ rw, length rw = cols) g.

Lemma at2_lookup2 d g r c : at2 d g r c = default d (lookup2 g r c).
Proof. reflexivity. Qed.

Lemma lookup2_set2_ne g r c x r' c' :
  (r, c) ≠ (r', c') → lookup2 (set2 g r c x) r' c' = lookup2 g r' c'.
Proof.
  intros Hne. unfold lookup2, set2.
  destruct (decide (r = r')) as [<-|Hr].
  - rewrite list_lookup_alter_eq. destruct (g !! r) as [rw|]; simpl; [|done].
    apply list_lookup_insert_ne. congruence.
  - by rewrite list_lookup_alter_ne.
Qed.

Lemma lookup2_set2_eq g r c x :
  is_Some (lookup2 g r c) → lookup2 (set2 g r c x) r c = Some x.
Proof.
  unfold lookup2, set2. rewrite list_lookup_alter_eq.
  destruct (g !! r) as [rw|]; simpl; [|by intros [? ?]].
  intros Hs. apply list_lookup_insert_eq. by apply lookup_lt_is_Some.
Qed.

Lemma lookup2_set2_is_Some g r c x r' c' :
  is_Some (lookup2 (set2 g r c x) r' c') ↔ is_Some (lookup2 g r' c').
Proof.
  destruct (decide ((r, c) = (r', c'))) as [[= <- <-]|Hne].
  - split; intros Hs.
    + unfold lookup2, set2 in *. rewrite list_lookup_alter_eq in Hs.
      destruct (g !! r) as [rw|]; simpl in *; [|done].
      apply lookup_lt_is_Some. apply lookup_lt_is_Some in Hs.
      by rewrite length_insert in Hs.
    + rewrite lookup2_set2_eq; eauto.
  - by rewrite lookup2_set2_ne.
Qed.

Lemma lookup2_is_Some rows cols g r c :
  shape rows cols g → is_Some (lookup2 g r c) ↔ r < rows ∧ c < cols.
Proof.
  intros [Hlen Hall]. unfold lookup2. split.
  - destruct (g !! r) as [rw|] eqn:Hr; simpl; [|by intros [? ?]].
    intros Hs. apply lookup_lt_is_Some in Hs.
    pose proof (lookup_lt_Some _ _ _ Hr).
    rewrite Forall_lookup in Hall. specialize (Hall _ _ Hr). simpl in Hall. lia.
  - intros [Hr Hc]. rewrite <- Hlen in Hr.
    apply lookup_lt_is_Some in Hr as [rw Hrw]. rewrite Hrw. simpl.
    apply lookup_lt_is_Some.
    rewrite Forall_lookup in Hall. specialize (Hall _ _ Hrw). simpl in Hall. lia.
Qed.

Lemma lookup2_None rows cols g r c :
  shape rows cols g → ¬ (r < rows ∧ c < cols) → lookup2 g r c = None.
Proof.
  intros Hsh Hn. destruct (lookup2 g r c) eqn:E; [|done].
  exfalso. apply Hn. eapply lookup2_is_Some; eauto.
Qed.

Lemma shape_set2 rows cols g r c x :
  shape rows cols g → shape rows cols (set2 g r c x).
Proof.
  intros [Hlen Hall]. split; unfold set2.
  - by rewrite length_alter.
  - rewrite Forall_lookup in Hall. apply Forall_lookup. intros i rw Hi.
    destruct (decide (r = i)) as [<-|Hne].
    + rewrite list_lookup_alter_eq in Hi.
      destruct (g !! r) as [rw0|] eqn:E; simpl in Hi; [|done].
      injection Hi as <-. rewrite length_insert. eapply Hall; eauto.
    + rewrite list_lookup_alter_ne in Hi by done. eapply Hall; eauto.
Qed.

Lemma shape_fill2 rows cols x : shape rows cols (fill2 rows cols x).
Proof.
  split; unfold fill2.
  - apply length_replicate.
  - apply Forall_replicate. apply length_replicate.
Qed.

Lemma lookup2_fill2 rows cols x r c :
  r < rows → c < cols → lookup2 (fill2 rows cols x) r c = Some x.
Proof.
  intros Hr Hc. unfold lookup2, fill2.
  rewrite lookup_replicate_2 by done. simpl. by apply lookup_replicate_2.
Qed.

Lemma at2_fill2 d rows cols x r c :
  at2 d (fill2 rows cols x) r c = if decide (r < rows ∧ c < cols) then x else d.
Proof.
  rewrite at2_lookup2. case_decide as H.
  - destruct H. by rewrite lookup2_fill2.
  - by rewrite (lookup2_None rows cols) by (done || apply shape_fill2).
Qed.

Lemma at2_set2_ne d g r c x r' c' :
  (r, c) ≠ (r', c') → at2 d (set2 g r c x) r' c' = at2 d g r' c'.
Proof. intros. by rewrite !at2_lookup2, lookup2_set2_ne. Qed.

Lemma at2_set2_eq d rows cols g r c x :
  shape rows cols g → r < rows → c < cols → at2 d (set2 g r c x) r c = x.
Proof.
  intros Hsh Hr Hc. rewrite at2_lookup2, lookup2_set2_eq; [done|].
  eapply lookup2_is_Some; eauto.
Qed.
End ArrayFacts.

(** ** getEnergyMatrix *)

Section EnergyFacts.
Variable sobelData : list Z.
Variable w : Z.

(** The value the inner loop stores at [(y, x)]. *)
Definition cell_sum (y x : nat) : num :=
  let offset := (Z.of_nat y * w * 4 + Z.of_nat x * 4)%Z in
  num_add (num_add (sample sobelData offset) (sample sobelData (offset + 1)))
          (sample sobelData (offset + 2)).

Lemma energy_row_spec rows cols (m : list (list num)) y n :
  shape rows cols m → y < rows → n ≤ cols →
  let m' := foldl (energy_cell sobelData w y) m (seq 0 n) in
  shape rows cols m' ∧
  ∀ y' x', lookup2 m' y' x' =
    if decide (y' = y ∧ x' < n) then Some (cell_sum y x') else lookup2 m y' x'.
Proof.
  intros Hsh Hy. induction n as [|n IH]; intros Hn; cbv zeta in *.
  - split; [done|]. intros y' x'. case_decide; [lia|done].
  - rewrite seq_S, foldl_app. simpl. destruct IH as [IHs IHl]; [lia|].
    split; [by apply shape_set2|].
    intros y' x'. unfold energy_cell at 1. fold (cell_sum y n).
    destruct (decide ((y, n) = (y', x'))) as [[= <- <-]|Hne].
    + rewrite lookup2_set2_eq.
      * rewrite decide_True by lia. done.
      * apply (lookup2_is_Some rows cols); [done|lia].
    + rewrite lookup2_set2_ne by done. rewrite IHl.
      repeat case_decide; try done; destruct_and?; try lia.
      exfalso. apply Hne. f_equal; lia.
Qed.

Lemma energy_rows_spec rows cols (m : list (list num)) n :
  shape rows cols m → n ≤ rows →
  let m' := foldl (fun m y => foldl (energy_cell sobelData w y) m (seq 0 cols))
                  m (seq 0 n) in
  shape rows cols m' ∧
  ∀ y' x', lookup2 m' y' x' =
    if decide (y' < n ∧ x' < cols) then Some (cell_sum y' x') else lookup2 m y' x'.
Proof.
  intros Hsh. induction n as [|n IH]; intros Hn; cbv zeta in *.
  - split; [done|]. intros y' x'. case_decide; [lia|done].
  - rewrite seq_S, foldl_app. simpl. destruct IH as [IHs IHl]; [lia|].
    destruct (energy_row_spec rows cols _ n cols IHs) as [Hs' Hl']; [lia|lia|].
    split; [done|]. intros y' x'. rewrite Hl', IHl.
    repeat case_decide; destruct_and?; subst; try done; exfalso; intuition lia.
Qed.
End EnergyFacts.

(** C9. For a gradient-response buffer of length [width * height * 4],
    [getEnergyMatrix] returns a grid of [height] rows of [width] cells in
    which the cell at [(y, x)] is the exact integer sum of the three samples
    at flat offsets [(y * width + x) * 4], [+ 1] and [+ 2]; the fourth sample
    (alpha) is not read and nothing is scaled or clamped. *)
Theorem getEnergyMatrix_sums (sobelData : list Z) (image : Image) :
  (0 ≤ width image)%Z → (0 ≤ height image)%Z →
  Z.of_nat (length sobelData) = (width image * height image * 4)%Z →
  ∃ matrix,
    getEnergyMatrix sobelData image = Ret matrix ∧
    shape (Z.to_nat (height image)) (Z.to_nat (width image)) matrix ∧
    ∀ y x, y < Z.to_nat (height image) → x < Z.to_nat (width image) →
      ∃ s0 s1 s2,
        sobelData !! ((y * Z.to_nat (width image) + x) * 4) = Some s0 ∧
        sobelData !! ((y * Z.to_nat (width image) + x) * 4 + 1) = Some s1 ∧
        sobelData !! ((y * Z.to_nat (width image) + x) * 4 + 2) = Some s2 ∧
        lookup2 matrix y x = Some (Fin (s0 + s1 + s2)).
Proof.
  intros Hw Hh Hlen. unfold getEnergyMatrix.
  destruct (Z.ltb_spec (height image) 0) as [|_]; [lia|].
  destruct (Z.ltb_spec (width image) 0) as [|_]; [lia|].
  rewrite andb_false_r.
  set (h := Z.to_nat (height image)). set (wn := Z.to_nat (width image)).
  destruct (energy_rows_spec sobelData (width image) h wn
              (fill2 h wn (Fin 0)) h (shape_fill2 _ _ _)) as [Hs Hl]; [lia|].
  eexists. split; [reflexivity|]. split; [exact Hs|].
  intros y x Hy Hx. rewrite Hl. rewrite decide_True by done.
  assert (Hin : (y * wn + x) * 4 + 3 < length sobelData) by (subst h wn; nia).
  destruct (lookup_lt_is_Some_2 sobelData ((y * wn + x) * 4)) as [s0 E0]; [lia|].
  destruct (lookup_lt_is_Some_2 sobelData ((y * wn + x) * 4 + 1)) as [s1 E1]; [lia|].
  destruct (lookup_lt_is_Some_2 sobelData ((y * wn + x) * 4 + 2)) as [s2 E2]; [lia|].
  exists s0, s1, s2. repeat split; try done.
  unfold cell_sum, sample.
  set (o := (Z.of_nat y * width image * 4 + Z.of_nat x * 4)%Z).
  assert (Ho : Z.to_nat o = (y * wn + x) * 4) by (subst o wn; nia).
  assert (Hp : (0 ≤ o)%Z) by (subst o; nia).
  destruct (Z.ltb_spec o 0) as [|_]; [lia|].
  destruct (Z.ltb_spec (o + 1) 0) as [|_]; [lia|].
  destruct (Z.ltb_spec (o + 2) 0) as [|_]; [lia|].
  replace (Z.to_nat (o + 1)) with ((y * wn + x) * 4 + 1) by lia.
  replace (Z.to_nat (o + 2)) with ((y * wn + x) * 4 + 2) by lia.
  rewrite Ho, E0, E1, E2. reflexivity.
Qed.

(** ** Counting the cells not yet visited *)

Fixpoint count_false (l : list bool) : nat :=
  match l with
  | [] => 0
  | b :: l' => (if b then 0 else 1) + count_false l'
  end.

Definition unvisited (vis : list (list bool)) : nat :=
  sum_list (map count_false vis).

Lemma count_false_insert_le l i : count_false (<[i:=true]> l) ≤ count_false l.
Proof.
  revert i. induction l as [|b l IH]; intros [|i]; simpl; try lia.
  specialize (IH i). lia.
Qed.

Lemma count_false_insert_lt l i :
  l !! i = Some false → S (count_false (<[i:=true]> l)) = count_false l.
Proof.
  revert i. induction l as [|b l IH]; intros [|i] H; simpl in *; try done.
  - by simplify_eq.
  - rewrite <- (IH i H). lia.
Qed.

Lemma unvisited_set2_le vis r c : unvisited (set2 vis r c true) ≤ unvisited vis.
Proof.
  unfold unvisited, set2. revert r.
  induction vis as [|rw vis IH]; intros [|r]; simpl; try lia.
  - pose proof (count_false_insert_le rw c). lia.
  - specialize (IH r). unfold alter in IH. lia.
Qed.

Lemma unvisited_set2_lt vis r c :
  lookup2 vis r c = Some false → S (unvisited (set2 vis r c true)) = unvisited vis.
Proof.
  unfold unvisited, set2, lookup2. revert r.
  induction vis as [|rw vis IH]; intros [|r] H; simpl in *; try done.
  - rewrite <- (count_false_insert_lt rw c H). lia.
  - specialize (IH r H). unfold alter in IH. rewrite <- IH. lia.
Qed.

Lemma count_false_replicate n : count_false (replicate n false) = n.
Proof. induction n; simpl; lia. Qed.

Lemma unvisited_fill2 rows cols : unvisited (fill2 rows cols false) = rows * cols.
Proof.
  unfold unvisited, fill2. induction rows as [|n IH]; simpl; [done|].
  rewrite count_false_replicate. unfold fill2 in IH. lia.
Qed.

(** ** Seams *)

(** One step of a seam: to the next row, one column to the left or right. *)
Definition diag_step (a b : coord) : Prop :=
  fst b = S (fst a) ∧ (snd b = S (snd a) ∨ snd a = S (snd b)).

Inductive diag_path : list coord → Prop :=
  | diag_one a : diag_path [a]
  | diag_cons a b l : diag_step a b → diag_path (b :: l) → diag_path (a :: b :: l).

Lemma diag_path_rows a l :
  diag_path (a :: l) → map fst (a :: l) = seq (fst a) (S (length l)).
Proof.
  revert a. induction l as [|b l IH]; intros a H; [done|].
  inversion H as [|? ? ? [Hr _] Hl]; subst.
  change (fst a :: map fst (b :: l) = fst a :: seq (S (fst a)) (S (length l))).
  f_equal. rewrite IH by done. by rewrite Hr.
Qed.

Lemma diag_path_lookup p i a b :
  diag_path p → p !! i = Some a → p !! S i = Some b → diag_step a b.
Proof.
  intros H. revert i. induction H as [x|x y l Hxy Hl IH]; intros i Ha Hb.
  - by destruct i.
  - destruct i as [|i]; simpl in *.
    + by simplify_eq.
    + by apply (IH i).
Qed.


(** ** The sort *)

Lemma sort_insert_perm x l : sort_insert x l ≡ₚ x :: l.
Proof.
  induction l as [|y l IH]; simpl; [done|].
  destruct (num_sub_pos _ _); [|done].
  rewrite IH. apply Permutation_swap.
Qed.

Lemma sort_perm q : sort q ≡ₚ q.
Proof.
  induction q as [|x q IH]; simpl; [done|].
  by rewrite sort_insert_perm, IH.
Qed.

Lemma sort_nil_inv q : sort q = [] → q = [].
Proof.
  intros H. apply Permutation_nil_r. rewrite <- H. symmetry. apply sort_perm.
Qed.

Lemma sort_head_elem q e q' : sort q = e :: q' → e ∈ q ∧ ∀ x, x ∈ q' → x ∈ q.
Proof.
  intros H. pose proof (sort_perm q) as Hp. rewrite H in Hp. split.
  - rewrite <- Hp. left.
  - intros x Hx. rewrite <- Hp. by right.
Qed.

#[global] Instance num_eq_dec : EqDecision num.
Proof. solve_decision. Defined.











(** ** pathfind: one iteration, case by case *)

Section PathfindFacts.
Variable matrix : list (list num).
Variables rows cols : nat.

Abbreviation relax' := (relax matrix rows cols).
Abbreviation relax_all' := (relax_all matrix rows cols).
Abbreviation search' := (search matrix rows cols).
Abbreviation startCol' := (startCol cols).

(** The state after [queue.shift()] when the popped cell was visited. *)
Definition dequeue (st : state) (q : list entry) : state :=
  {| distances := distances st; visited := visited st;
     previous := previous st; queue := q |}.

(** The state after [visited[row][col] = true]. *)
Definition mark (st : state) (r c : nat) (q : list entry) : state :=
  {| distances := distances st; visited := set2 (visited st) r c true;
     previous := previous st; queue := q |}.

(** The tracing back of the path from a popped cell of the last row. *)
Definition finish (st : state) (r c : nat) : completion (option (list coord)) :=
  match trace rows (previous st) (at2 None (previous st) r c) [(r, c)] with
  | Ret path => Ret (Some path)
  | Throw e => Throw e
  | OutOfFuel => OutOfFuel
  end.

(** The assignments made when a neighbour improves. *)
Definition improve (st : state) (r c : nat) (d : num) (nc : nat) : state :=
  let newDistance := num_add d (at2 NaN matrix (S r) nc) in
  {| distances := set2 (distances st) (S r) nc newDistance;
     visited := visited st;
     previous := set2 (previous st) (S r) nc (Some (r, c));
     queue := queue st ++ [Entry (S r) nc newDistance] |}.

Definition improves (st : state) (r : nat) (d : num) (nc : nat) : bool :=
  num_lt (num_add d (at2 NaN matrix (S r) nc)) (at2 NaN (distances st) (S r) nc).

(** The neighbour in column [nc] of the next row, known to be in bounds. *)
Definition push_if (st : state) (r c : nat) (d : num) (nc : nat) : state :=
  if improves st r d nc then improve st r c d nc else st.

Lemma relax_left st r c d :
  relax' r c d st (-1) =
    if decide (S r < rows ∧ 1 ≤ c ∧ c - 1 < cols) then push_if st r c d (c - 1) else st.
Proof.
  unfold relax. simpl (_ =? _)%Z. cbv zeta.
  case_decide as H.
  - destruct H as (Hr & Hc & Hc').
    destruct (Z.ltb_spec (Z.of_nat r + 1) 0); [lia|].
    destruct (Z.geb_spec (Z.of_nat r + 1) (Z.of_nat rows)); [lia|].
    destruct (Z.ltb_spec (Z.of_nat c + -1) 0); [lia|].
    destruct (Z.geb_spec (Z.of_nat c + -1) (Z.of_nat cols)); [lia|].
    simpl. replace (Z.to_nat (Z.of_nat r + 1)) with (S r) by lia.
    replace (Z.to_nat (Z.of_nat c + -1)) with (c - 1) by lia.
    reflexivity.
  - destruct (Z.ltb_spec (Z.of_nat r + 1) 0); [done|].
    destruct (Z.geb_spec (Z.of_nat r + 1) (Z.of_nat rows)); [done|].
    destruct (Z.ltb_spec (Z.of_nat c + -1) 0); [done|].
    destruct (Z.geb_spec (Z.of_nat c + -1) (Z.of_nat cols)); [done|].
    exfalso. apply H. lia.
Qed.

Lemma relax_right st r c d :
  relax' r c d st 1 =
    if decide (S r < rows ∧ c + 1 < cols) then push_if st r c d (c + 1) else st.
Proof.
  unfold relax. simpl (_ =? _)%Z. cbv zeta.
  case_decide as H.
  - destruct H as (Hr & Hc).
    destruct (Z.ltb_spec (Z.of_nat r + 1) 0); [lia|].
    destruct (Z.geb_spec (Z.of_nat r + 1) (Z.of_nat rows)); [lia|].
    destruct (Z.ltb_spec (Z.of_nat c + 1) 0); [lia|].
    destruct (Z.geb_spec (Z.of_nat c + 1) (Z.of_nat cols)); [lia|].
    simpl. replace (Z.to_nat (Z.of_nat r + 1)) with (S r) by lia.
    replace (Z.to_nat (Z.of_nat c + 1)) with (c + 1) by lia.
    reflexivity.
  - destruct (Z.ltb_spec (Z.of_nat r + 1) 0); [done|].
    destruct (Z.geb_spec (Z.of_nat r + 1) (Z.of_nat rows)); [done|].
    destruct (Z.ltb_spec (Z.of_nat c + 1) 0); [done|].
    destruct (Z.geb_spec (Z.of_nat c + 1) (Z.of_nat cols)); [done|].
    exfalso. apply H. lia.
Qed.

(** The two neighbours an iteration looks at, down-left first. *)
Definition left_of (st : state) (r c : nat) (d : num) : state :=
  if decide (S r < rows ∧ 1 ≤ c ∧ c - 1 < cols) then push_if st r c d (c - 1) else st.

Definition right_of (st : state) (r c : nat) (d : num) : state :=
  if decide (S r < rows ∧ c + 1 < cols) then push_if st r c d (c + 1) else st.

Lemma relax_all_eq st r c d :
  relax_all' r c d st = right_of (left_of st r c d) r c d.
Proof.
  unfold relax_all. simpl foldl. rewrite relax_left.
  fold (left_of st r c d).
  replace (relax' r c d (left_of st r c d) 0) with (left_of st r c d) by done.
  apply relax_right.
Qed.


(** A property kept by every iteration holds where the loop ends: either
    on an empty queue, or at the popped cell of the last row from which
    the path is traced back. *)
Lemma search_cases (I : state → Prop) :
  (∀ st e q, I st → sort (queue st) = e :: q →
     at2 false (visited st) (row e) (col e) = true → I (dequeue st q)) →
  (∀ st e q, I st → sort (queue st) = e :: q →
     at2 false (visited st) (row e) (col e) = false → row e ≠ rows - 1 →
     I (relax_all' (row e) (col e) (distance e) (mark st (row e) (col e) q))) →
  ∀ fuel st, I st →
    search' fuel st = OutOfFuel ∨
    (search' fuel st = Ret None ∧ ∃ st', I st' ∧ queue st' = []) ∨
    (∃ st' e q, I st' ∧ sort (queue st') = e :: q ∧
       at2 false (visited st') (row e) (col e) = false ∧ row e = rows - 1 ∧
       search' fuel st = finish (mark st' (row e) (col e) q) (row e) (col e)).
Proof.
  intros Hskip Hexp. induction fuel as [|fuel IH]; intros st HI; [by left|].
  simpl. destruct (sort (queue st)) as [|e q] eqn:Hs.
  - right. left. split; [done|]. exists st. split; [done|]. by apply sort_nil_inv.
  - destruct e as [r c d]. destruct (at2 false (visited st) r c) eqn:Hv.
    + apply IH. by apply (Hskip st (Entry r c d) q).
    + destruct (Nat.eqb_spec r (rows - 1)) as [Hr|Hr].
      * right. right. exists st, (Entry r c d), q. by repeat split.
      * apply IH. by apply (Hexp st (Entry r c d) q).
Qed.

(** *** The shape of the tables and of the back-pointers *)

(** A cell is reached when it is the start cell or has a back-pointer. *)
Definition reached (prev : list (list (option coord))) (r c : nat) : Prop :=
  r < rows ∧ c < Nat.max 1 cols ∧
  ((r = 0 ∧ c = startCol') ∨ at2 None prev r c ≠ None).

Record wf_state (st : state) : Prop := {
  wf_visited : shape rows cols (visited st);
  wf_previous : shape rows cols (previous st);
  wf_distances : shape rows cols (distances st);
  wf_top : ∀ c, at2 None (previous st) 0 c = None;
  wf_link : ∀ r c r' c', at2 None (previous st) r c = Some (r', c') →
    r = S r' ∧ (c = S c' ∨ c' = S c) ∧ r < rows ∧ c < cols ∧
    reached (previous st) r' c';
  wf_queue : ∀ e, e ∈ queue st → reached (previous st) (row e) (col e)
}.

Lemma at2_set2_Some_mono (prev : list (list (option coord))) a b x r c :
  at2 None prev r c ≠ None → at2 None (set2 prev a b (Some x)) r c ≠ None.
Proof.
  intros H. destruct (decide ((a, b) = (r, c))) as [[= -> ->]|Hne].
  - rewrite at2_lookup2, lookup2_set2_eq; [done|].
    rewrite at2_lookup2 in H. by destruct (lookup2 prev r c).
  - by rewrite at2_set2_ne.
Qed.

Lemma reached_mono prev a b x r c :
  reached prev r c → reached (set2 prev a b (Some x)) r c.
Proof.
  intros (Hr & Hc & [H|H]); repeat split; auto.
  right. by apply at2_set2_Some_mono.
Qed.

Lemma startCol_lt : startCol' < Nat.max 1 cols.
Proof.
  unfold startCol. destruct cols as [|n]; [simpl; lia|].
  apply Nat.lt_le_trans with (S n); [|lia].
  apply Nat.div_lt; lia.
Qed.

Lemma wf_init : 0 < rows → wf_state (init matrix rows cols).
Proof.
  intros Hrows. split; simpl.
  - apply shape_fill2.
  - apply shape_fill2.
  - apply shape_set2, shape_fill2.
  - intros c. rewrite at2_fill2. by case_decide.
  - intros r c r' c'. rewrite at2_fill2. by case_decide.
  - intros e ->%list_elem_of_singleton. simpl.
    split; [done|]. split; [apply startCol_lt|]. by left.
Qed.

Lemma wf_dequeue st q :
  wf_state st → (∀ x, x ∈ q → x ∈ queue st) → wf_state (dequeue st q).
Proof. intros [] Hq. split; simpl; auto. Qed.

Lemma wf_mark st r c q :
  wf_state st → (∀ x, x ∈ q → x ∈ queue st) → wf_state (mark st r c q).
Proof. intros [] Hq. split; simpl; auto. by apply shape_set2. Qed.

Lemma wf_push_if st r c d nc :
  wf_state st → reached (previous st) r c → S r < rows → nc < cols →
  (nc = S c ∨ c = S nc) → wf_state (push_if st r c d nc).
Proof.
  intros Hwf Hrc Hr Hnc Hadj. unfold push_if.
  destruct (improves st r d nc); [|done].
  destruct Hwf as [Hv Hp Hd Htop Hlink Hq]. split; simpl.
  - done.
  - by apply shape_set2.
  - by apply shape_set2.
  - intros c0. rewrite at2_set2_ne by done. apply Htop.
  - intros r0 c0 r' c'.
    destruct (decide ((S r, nc) = (r0, c0))) as [[= <- <-]|Hne].
    + rewrite (at2_set2_eq _ rows cols) by done. intros [= <- <-].
      split; [done|]. split; [tauto|]. split; [done|]. split; [done|].
      by apply reached_mono.
    + rewrite at2_set2_ne by done. intros H.
      destruct (Hlink _ _ _ _ H) as (? & ? & ? & ? & ?).
      split; [done|]. split; [done|]. split; [done|]. split; [done|].
      by apply reached_mono.
  - intros e [He| ->%list_elem_of_singleton]%elem_of_app.
    + by apply reached_mono, Hq.
    + simpl. split; [done|]. split; [lia|]. right.
      by rewrite (at2_set2_eq _ rows cols).
Qed.

Lemma previous_push_if st r c d nc r0 c0 :
  reached (previous st) r0 c0 → reached (previous (push_if st r c d nc)) r0 c0.
Proof.
  unfold push_if. destruct (improves st r d nc); [|done].
  simpl. apply reached_mono.
Qed.

Lemma wf_relax_all st r c d :
  wf_state st → reached (previous st) r c → wf_state (relax_all' r c d st).
Proof.
  intros Hwf Hrc. rewrite relax_all_eq.
  assert (Hl : wf_state (left_of st r c d)).
  { unfold left_of. case_decide as H; [|done].
    apply wf_push_if; auto; lia. }
  unfold right_of. case_decide as H; [|done].
  apply wf_push_if; auto; try lia.
  unfold left_of. case_decide; [|done]. by apply previous_push_if.
Qed.

(** Tracing back from a reached cell of row [r] adds the [r] cells above
    it, the first of which is the start cell. *)
Lemma trace_spec st :
  wf_state st → ∀ r c path fuel,
  reached (previous st) r c → diag_path ((r, c) :: path) → r < fuel →
  ∃ pre,
    trace fuel (previous st) (at2 None (previous st) r c) ((r, c) :: path)
      = Ret (pre ++ (r, c) :: path) ∧
    diag_path (pre ++ (r, c) :: path) ∧
    length pre = r ∧
    head (pre ++ (r, c) :: path) = Some (0, startCol') ∧
    Forall (λ x, snd x < Nat.max 1 cols) pre.
Proof.
  intros Hwf. induction r as [|r IH]; intros c path fuel Hrc Hpath Hfuel.
  - rewrite (wf_top _ Hwf). exists []. simpl.
    destruct Hrc as (_ & _ & [[_ ->]|H]); [|by rewrite (wf_top _ Hwf) in H].
    destruct fuel; by repeat split.
  - destruct Hrc as (_ & _ & [[? _]|H]); [done|].
    destruct (at2 None (previous st) (S r) c) as [[r' c']|] eqn:E; [|done].
    destruct (wf_link _ Hwf _ _ _ _ E) as ([= <-] & Hadj & _ & _ & Hr').
    destruct fuel as [|fuel]; [lia|]. simpl.
    destruct (IH c' ((S r, c) :: path) fuel Hr') as (pre & Ht & Hd & Hlen & Hhd & Hb).
    { constructor; [|done]. split; simpl; [done|]. tauto. }
    { lia. }
    exists (pre ++ [(r, c')]). rewrite <- !app_assoc. simpl.
    repeat split; auto.
    + rewrite length_app. simpl. lia.
    + apply Forall_app. split; [done|]. constructor; [|done].
      simpl. by destruct Hr' as (_ & ? & _).
Qed.

(** The seam returned from a reached cell of the last row. *)
Lemma finish_spec st r c q :
  wf_state st → reached (previous st) r c → r = rows - 1 →
  ∃ path,
    finish (mark st r c q) r c = Ret (Some path) ∧
    diag_path path ∧ length path = rows ∧
    head path = Some (0, startCol') ∧ last path = Some (r, c) ∧
    Forall (λ x, snd x < Nat.max 1 cols) path.
Proof.
  intros Hwf Hrc Hr. unfold finish. simpl.
  destruct (trace_spec st Hwf r c [] rows Hrc) as (pre & Ht & Hd & Hlen & Hhd & Hb).
  { constructor. }
  { destruct Hrc as (? & _). done. }
  rewrite Ht. eexists. split; [done|]. repeat split; auto.
  - rewrite length_app. simpl. destruct Hrc as (? & _). lia.
  - by rewrite last_snoc.
  - apply Forall_app. split; [done|]. constructor; [|done].
    simpl. by destruct Hrc as (_ & ? & _).
Qed.

(** [wf_state] is kept by both kinds of iteration. *)
Lemma wf_skip st e q :
  wf_state st → sort (queue st) = e :: q → wf_state (dequeue st q).
Proof.
  intros Hwf Hs. apply wf_dequeue; [done|]. by apply (sort_head_elem _ _ _ Hs).
Qed.

Lemma wf_expand st e q :
  wf_state st → sort (queue st) = e :: q →
  wf_state (relax_all' (row e) (col e) (distance e) (mark st (row e) (col e) q)).
Proof.
  intros Hwf Hs. destruct (sort_head_elem _ _ _ Hs) as [He Hq].
  apply wf_relax_all; [by apply wf_mark|].
  simpl. by apply (wf_queue _ Hwf).
Qed.

(** *** The loop ends *)

(** Each iteration takes one entry off the queue; only the first visit of
    a cell adds entries, and at most two. *)
Definition measure (st : state) : nat :=
  length (queue st) + 2 * unvisited (visited st).

Lemma push_if_queue_length st r c d nc :
  length (queue (push_if st r c d nc)) ≤ S (length (queue st)) ∧
  visited (push_if st r c d nc) = visited st.
Proof.
  unfold push_if. destruct (improves st r d nc); simpl; (split; [|done]).
  - rewrite length_app. simpl. lia.
  - lia.
Qed.

Lemma relax_all_measure st r c d :
  length (queue (relax_all' r c d st)) ≤
    length (queue st) + (if decide (cols = 0) then 0 else 2) ∧
  visited (relax_all' r c d st) = visited st.
Proof.
  rewrite relax_all_eq. unfold right_of.
  assert (H1 : length (queue (left_of st r c d)) ≤
                 length (queue st) + (if decide (cols = 0) then 0 else 1) ∧
               visited (left_of st r c d) = visited st).
  { unfold left_of. case_decide as H.
    - destruct (push_if_queue_length st r c d (c - 1)) as [? ?].
      split; [|done]. case_decide; lia.
    - split; [lia|done]. }
  destruct H1 as [Hq Hv].
  destruct (decide (S r < rows ∧ c + 1 < cols)) as [H|H].
  - destruct (push_if_queue_length (left_of st r c d) r c d (c + 1)) as [? Hv'].
    split; [|congruence]. repeat case_decide; lia.
  - split; [|done]. repeat case_decide; lia.
Qed.

Lemma search_total fuel st :
  wf_state st → measure st < fuel → search' fuel st ≠ OutOfFuel.
Proof.
  revert st. induction fuel as [|fuel IH]; intros st Hwf Hm; [lia|].
  simpl. destruct (sort (queue st)) as [|e q] eqn:Hs; [done|].
  assert (Hlen : length (queue st) = S (length q)).
  { by rewrite <- (Permutation_length (sort_perm (queue st))), Hs. }
  destruct (sort_head_elem _ _ _ Hs) as [He Hq].
  pose proof (wf_queue _ Hwf e He) as Hre.
  destruct e as [r c d]. simpl in Hre.
  destruct (at2 false (visited st) r c) eqn:Hv.
  - apply IH; [by eapply wf_skip|]. unfold measure in *. simpl. lia.
  - destruct (Nat.eqb_spec r (rows - 1)) as [Hr|Hr].
    + destruct (finish_spec st r c q Hwf Hre Hr) as (path & Hf & _).
      unfold finish in Hf. simpl in Hf.
      destruct (trace _ _ _ _); by simplify_eq.
    + apply IH; [by apply (wf_expand st (Entry r c d) q)|].
      destruct (relax_all_measure (mark st r c q) r c d) as [Hql Hvis].
      unfold mark in Hql, Hvis. unfold measure in *. rewrite Hvis. simpl in *.
      case_decide as Hc.
      * pose proof (unvisited_set2_le (visited st) r c). lia.
      * assert (Hin : lookup2 (visited st) r c = Some false).
        { destruct Hre as (Hr1 & Hc1 & _).
          destruct (proj2 (lookup2_is_Some rows cols (visited st) r c
                       (wf_visited _ Hwf))) as [b Hb]; [lia|].
          rewrite at2_lookup2, Hb in Hv. simpl in Hv. by subst. }
        pose proof (unvisited_set2_lt _ _ _ Hin). lia.
Qed.

(** *** Reading the tables after an assignment *)

Definition dist (st : state) (r c : nat) : num := at2 NaN (distances st) r c.
Definition seen (st : state) (r c : nat) : bool := at2 false (visited st) r c.
Definition prev (st : state) (r c : nat) : option coord := at2 None (previous st) r c.


Lemma seen_mark st r c q r0 c0 :
  wf_state st → r < rows → c < cols →
  seen (mark st r c q) r0 c0 = if decide ((r0, c0) = (r, c)) then true else seen st r0 c0.
Proof.
  intros Hwf Hr Hc. unfold seen, mark. simpl. case_decide as H.
  - injection H as -> ->. apply (at2_set2_eq _ rows cols); [apply Hwf|done..].
  - apply at2_set2_ne. congruence.
Qed.

Lemma dist_improve st r c d nc r0 c0 :
  wf_state st → S r < rows → nc < cols →
  dist (improve st r c d nc) r0 c0 =
    if decide ((r0, c0) = (S r, nc)) then num_add d (at2 NaN matrix (S r) nc)
    else dist st r0 c0.
Proof.
  intros Hwf Hr Hc. unfold dist, improve. simpl. case_decide as H.
  - injection H as -> ->. apply (at2_set2_eq _ rows cols); [apply Hwf|done..].
  - apply at2_set2_ne. congruence.
Qed.


Lemma sort_head_split q e q' :
  sort q = e :: q' → ∀ x, x ∈ q → x = e ∨ x ∈ q'.
Proof.
  intros H x Hx. rewrite <- (sort_perm q), H in Hx.
  by apply elem_of_cons in Hx.
Qed.

(** *** Paths and their total energy *)

(** The grid value at a cell, for a cell that holds a finite number. *)
Definition energy (r c : nat) : Z :=
  match at2 NaN matrix r c with
  | Fin z => z
  | _ => 0%Z
  end.

(** The total energy of a path: the sum of the grid values at its cells. *)
Definition cost (p : list coord) : Z :=
  foldr (λ x acc, (energy (fst x) (snd x) + acc)%Z) 0%Z p.




(** *** Grids of finite numbers: the search goes on to the last row *)

Section FiniteGrid.
Hypothesis Hcols : 0 < cols.
Hypothesis Hfinite : ∀ r c, r < rows → c < cols → is_fin (at2 NaN matrix r c).

(** The invariant of the loop, where [x], when given, is the cell the
    iteration has marked and is still looking at the neighbours of. *)
Record live_except (x : option coord) (st : state) : Prop := {
  lv_wf : wf_state st;
  lv_vals : ∀ r c, r < rows → c < cols →
    dist st r c = Infinity ∨ is_fin (dist st r c);
  lv_queue : ∀ e, e ∈ queue st → is_fin (distance e);
  lv_pending : ∀ r c, r < rows → c < cols → is_fin (dist st r c) →
    seen st r c = true ∨ ∃ e, e ∈ queue st ∧ row e = r ∧ col e = c;
  lv_expanded : ∀ r c nc, seen st r c = true → Some (r, c) ≠ x →
    S r < rows → nc < cols → nc = S c ∨ c = S nc → is_fin (dist st (S r) nc);
  lv_last : ∀ r c, seen st r c = true → S r < rows;
  lv_start : is_fin (dist st 0 startCol')
}.

Lemma startCol_in_range : startCol' < cols.
Proof. pose proof startCol_lt. lia. Qed.

Lemma live_init : 0 < rows → live_except None (init matrix rows cols).
Proof.
  intros Hrows. pose proof startCol_in_range as Hsc.
  assert (Hd : ∀ r c, r < rows → c < cols →
            dist (init matrix rows cols) r c =
              if decide ((r, c) = (0, startCol')) then at2 NaN matrix 0 startCol'
              else Infinity).
  { intros r c Hr Hc. unfold dist, init. simpl. case_decide as H.
    - injection H as -> ->. apply (at2_set2_eq _ rows cols); [apply shape_fill2|done..].
    - rewrite at2_set2_ne by congruence. rewrite at2_fill2. by rewrite decide_True. }
  assert (Hs : ∀ r c, seen (init matrix rows cols) r c = false).
  { intros r c. unfold seen, init. simpl. rewrite at2_fill2. by case_decide. }
  split.
  - by apply wf_init.
  - intros r c Hr Hc. rewrite Hd by done. case_decide; [right|by left].
    by apply Hfinite.
  - intros e ->%list_elem_of_singleton. simpl. by apply Hfinite.
  - intros r c Hr Hc. rewrite Hd by done. case_decide as H; [|by intros [? ?]].
    injection H as -> ->. intros _. right. eexists. split; [by left|done].
  - intros r c nc. by rewrite Hs.
  - intros r c. by rewrite Hs.
  - rewrite Hd by done. rewrite decide_True by done. by apply Hfinite.
Qed.

Lemma live_skip st e q :
  live_except None st → sort (queue st) = e :: q →
  seen st (row e) (col e) = true → live_except None (dequeue st q).
Proof.
  intros [Hwf Hvals Hq Hpend Hexp Hlast Hstart] Hs Hseen.
  destruct (sort_head_elem _ _ _ Hs) as [He Hsub].
  split; try done.
  - by eapply wf_skip.
  - intros x Hx. simpl in Hx. auto.
  - intros r c Hr Hc Hfin. destruct (Hpend r c Hr Hc Hfin) as [|(x & Hx & <- & <-)].
    + by left.
    + destruct (sort_head_split _ _ _ Hs x Hx) as [->|Hx']; [by left|].
      right. by exists x.
Qed.

Lemma live_mark st e q :
  live_except None st → sort (queue st) = e :: q →
  row e ≠ rows - 1 →
  live_except (Some (row e, col e)) (mark st (row e) (col e) q).
Proof.
  intros [Hwf Hvals Hq Hpend Hexp Hlast Hstart] Hs Hrow.
  destruct (sort_head_elem _ _ _ Hs) as [He Hsub].
  destruct (wf_queue _ Hwf e He) as (Hr & Hc & _).
  assert (Hc' : col e < cols) by lia.
  split; try done.
  - by apply wf_mark.
  - intros x Hx. simpl in Hx. auto.
  - intros r c Hr0 Hc0 Hfin. rewrite seen_mark by done.
    destruct (Hpend r c Hr0 Hc0 Hfin) as [|(x & Hx & <- & <-)].
    + left. by case_decide.
    + destruct (sort_head_split _ _ _ Hs x Hx) as [->|Hx'].
      * left. by rewrite decide_True.
      * right. by exists x.
  - intros r c nc. rewrite seen_mark by done. case_decide as H.
    + injection H as -> ->. by intros _ [].
    + intros Hseen _. by apply Hexp.
  - intros r c. rewrite seen_mark by done. case_decide as H.
    + injection H as -> ->. intros _. lia.
    + apply Hlast.
Qed.

Lemma live_push_if x st r c d nc :
  live_except x st → reached (previous st) r c → S r < rows → nc < cols →
  nc = S c ∨ c = S nc → is_fin d →
  live_except x (push_if st r c d nc) ∧
  is_fin (dist (push_if st r c d nc) (S r) nc) ∧
  ∀ r0 c0, is_fin (dist st r0 c0) → is_fin (dist (push_if st r c d nc) r0 c0).
Proof.
  intros Hlive Hrc Hr Hnc Hadj [z ->].
  pose proof (wf_push_if st r c (Fin z) nc (lv_wf _ _ Hlive) Hrc Hr Hnc Hadj) as Hwf'.
  destruct Hlive as [Hwf Hvals Hq Hpend Hexp Hlast Hstart].
  destruct (Hfinite (S r) nc Hr Hnc) as [w Hw].
  unfold push_if, improves in *. rewrite Hw in *. simpl num_add in *.
  destruct (num_lt (Fin (z + w)) (at2 NaN (distances st) (S r) nc)) eqn:Hlt.
  - assert (Hd : ∀ r0 c0, dist (improve st r c (Fin z) nc) r0 c0 =
              if decide ((r0, c0) = (S r, nc)) then Fin (z + w) else dist st r0 c0).
    { intros r0 c0. rewrite dist_improve by done. by rewrite Hw. }
    split; [split|split].
    + done.
    + intros r0 c0 Hr0 Hc0. rewrite Hd. case_decide; [right; by eexists|by apply Hvals].
    + intros e [He| ->%list_elem_of_singleton]%elem_of_app; [by apply Hq|].
      simpl. rewrite Hw. by eexists.
    + intros r0 c0 Hr0 Hc0. rewrite Hd. case_decide as H.
      * injection H as -> ->. intros _. right. eexists. split.
        { apply elem_of_app. right. by left. }
        done.
      * intros Hfin. destruct (Hpend r0 c0 Hr0 Hc0 Hfin) as [|(e & He & ? & ?)]; [by left|].
        right. exists e. split; [|done]. apply elem_of_app. by left.
    + intros r0 c0 nc0 Hseen Hx Hr0 Hnc0 Hadj0. rewrite Hd.
      case_decide; [by eexists|]. by apply (Hexp r0 c0).
    + done.
    + rewrite Hd. case_decide; [by eexists|done].
    + rewrite Hd. rewrite decide_True by done. by eexists.
    + intros r0 c0 Hfin. rewrite Hd. case_decide; [by eexists|done].
  - split; [done|]. split; [|done].
    destruct (Hvals (S r) nc Hr Hnc) as [Hinf|Hfin]; [|done].
    unfold dist in Hinf. by rewrite Hinf in Hlt.
Qed.

Lemma live_expand st e q :
  live_except None st → sort (queue st) = e :: q →
  row e ≠ rows - 1 →
  live_except None
    (relax_all' (row e) (col e) (distance e) (mark st (row e) (col e) q)).
Proof.
  intros Hlive Hs Hrow.
  destruct (sort_head_elem _ _ _ Hs) as [He Hsub].
  pose proof (wf_queue _ (lv_wf _ _ Hlive) e He) as Hre.
  pose proof (lv_queue _ _ Hlive e He) as Hfin.
  pose proof (live_mark st e q Hlive Hs Hrow) as Hm.
  destruct e as [r c d]. simpl in *.
  rewrite relax_all_eq.
  set (st1 := mark st r c q) in *.
  assert (Hre1 : reached (previous st1) r c) by done.
  assert (Hl : live_except (Some (r, c)) (left_of st1 r c d) ∧
               reached (previous (left_of st1 r c d)) r c ∧
               (S r < rows → 1 ≤ c → c - 1 < cols →
                  is_fin (dist (left_of st1 r c d) (S r) (c - 1)))).
  { unfold left_of. case_decide as H.
    - destruct H as (? & ? & ?).
      destruct (live_push_if _ st1 r c d (c - 1) Hm Hre1) as (? & ? & ?);
        try done; try lia.
      split; [done|]. split; [by apply previous_push_if|done].
    - split; [done|]. split; [done|]. intros. exfalso. apply H. lia. }
  destruct Hl as (Hl & Hrel & Hleft).
  set (st2 := left_of st1 r c d) in *.
  assert (Hr' : live_except (Some (r, c)) (right_of st2 r c d) ∧
               (S r < rows → 1 ≤ c → c - 1 < cols →
                  is_fin (dist (right_of st2 r c d) (S r) (c - 1))) ∧
               (S r < rows → c + 1 < cols →
                  is_fin (dist (right_of st2 r c d) (S r) (c + 1)))).
  { unfold right_of. case_decide as H.
    - destruct H as (? & ?).
      destruct (live_push_if _ st2 r c d (c + 1) Hl Hrel) as (? & ? & Hmono);
        try done; try lia.
      split; [done|]. split; [|done]. intros. apply Hmono. by apply Hleft.
    - split; [done|]. split; [done|]. intros. exfalso. apply H. lia. }
  destruct Hr' as ([Hwf Hvals Hq Hpend Hexp Hlast Hstart] & Hleft' & Hright').
  split; try done.
  intros r0 c0 nc Hseen _ Hr0 Hnc Hadj.
  destruct (decide ((r0, c0) = (r, c))) as [[= -> ->]|Hne].
  - destruct Hadj as [->| ->].
    + replace (S c) with (c + 1) in * by lia. by apply Hright'.
    + pose proof (Hleft' Hr0 ltac:(lia) ltac:(lia)) as HH.
      by replace (S nc - 1) with nc in HH by lia.
  - apply (Hexp r0 c0); try done. congruence.
Qed.

(** With at least two columns, or only one row, the queue is never found
    empty. *)
Lemma live_queue_nonempty st :
  0 < rows → 2 ≤ cols ∨ rows = 1 → live_except None st → queue st ≠ [].
Proof.
  intros Hrows Hshape [Hwf Hvals Hq Hpend Hexp Hlast Hstart] Hempty.
  pose proof startCol_in_range as Hsc.
  assert (Hvis : ∀ r c, r < rows → c < cols → is_fin (dist st r c) →
            seen st r c = true).
  { intros r c Hr Hc Hfin. destruct (Hpend r c Hr Hc Hfin) as [|(e & He & _)]; [done|].
    rewrite Hempty in He. by apply elem_of_nil in He. }
  assert (Hrow : ∀ r, r < rows → ∃ c, c < cols ∧ seen st r c = true).
  { induction r as [|r IH]; intros Hr.
    - exists startCol'. split; [done|]. by apply Hvis.
    - destruct IH as (c & Hc & Hseen); [lia|].
      destruct Hshape as [H2|H1]; [|lia].
      destruct (decide (c = 0)) as [->|Hc0].
      + exists 1. split; [lia|]. apply Hvis; [done|lia|].
        apply (Hexp r 0); auto.
      + exists (c - 1). split; [lia|]. apply Hvis; [done|lia|].
        apply (Hexp r c); auto; lia. }
  destruct (Hrow (rows - 1)) as (c & Hc & Hseen); [lia|].
  specialize (Hlast _ _ Hseen). lia.
Qed.

(** *** Grids of non-negative numbers: the seam found is a cheapest one *)



Section NonNegative.
Hypothesis Hrows : 0 < rows.
Hypothesis Hnonneg : ∀ r c, r < rows → c < cols → (0 ≤ energy r c)%Z.











End NonNegative.
End FiniteGrid.

End PathfindFacts.

(** ** pathfind: what every call comes to *)

(** The fuel of the model is enough: [pathfind] returns or throws. *)
Lemma pathfind_total (matrix : list (list num)) : pathfind matrix ≠ OutOfFuel.
Proof.
  destruct matrix as [|row0 rest]; [done|]. unfold pathfind.
  apply search_total.
  - apply wf_init. simpl. lia.
  - unfold measure. simpl. rewrite unvisited_fill2. lia.
Qed.

(** A returned seam is a diagonal path from the start cell with one cell in
    each row. *)
Lemma pathfind_seam (matrix : list (list num)) (path : list coord) :
  pathfind matrix = Ret (Some path) →
  ∃ row0 rest, matrix = row0 :: rest ∧
    diag_path path ∧ length path = length matrix ∧
    head path = Some (0, length row0 / 2) ∧
    Forall (λ x, snd x < Nat.max 1 (length row0)) path.
Proof.
  destruct matrix as [|row0 rest]; [done|]. unfold pathfind. intros Hp.
  exists row0, rest. split; [done|].
  set (rows := length (row0 :: rest)) in *. set (cols := length row0) in *.
  destruct (search_cases (row0 :: rest) rows cols (wf_state rows cols))
    with (fuel := 2 * rows * cols + 2) (st := init (row0 :: rest) rows cols)
    as [H|[[H _]|(st & e & q & Hwf & Hs & Hv & Hr & H)]].
  - intros st e q Hwf Hs _. by eapply wf_skip.
  - intros st e q Hwf Hs _ _. by apply wf_expand.
  - apply wf_init. subst rows. simpl. lia.
  - congruence.
  - congruence.
  - destruct (sort_head_elem _ _ _ Hs) as [He _].
    destruct (finish_spec rows cols st (row e) (col e) q Hwf
                (wf_queue _ _ _ Hwf e He) Hr) as (p & Hf & Hd & Hlen & Hhd & _ & Hb).
    rewrite Hp, Hf in H. by simplify_eq.
Qed.

(** On a grid of [H] rows of [W ≥ 1] cells the seam found is one that
    [carveSeam] can remove: one entry per row, columns in bounds. *)
Lemma pathfind_seam_in_bounds (H W : nat) (matrix : list (list num))
    (path : list coord) :
  shape H W matrix → 1 ≤ W → pathfind matrix = Ret (Some path) →
  map fst path = seq 0 H ∧ Forall (λ x, snd x < W) path.
Proof.
  intros [Hlen Hall] HW Hp.
  destruct (pathfind_seam _ _ Hp) as (row0 & rest & -> & Hd & Hl & Hhd & Hb).
  apply Forall_cons in Hall as [Hrow0 _]. rewrite Hrow0 in Hb.
  split.
  - destruct path as [|a l]; [done|]. injection Hhd as ->.
    rewrite (diag_path_rows _ _ Hd), <- Hlen, <- Hl. reflexivity.
  - eapply Forall_impl; [exact Hb|]. intros x Hx. simpl in Hx. lia.
Qed.

(** C1. A seam returned by [pathfind] for a grid of height [H] has exactly
    [H] coordinate pairs, their rows are 0, 1, ..., [H - 1] in this order, and
    the columns of two consecutive entries differ by at most 1. *)
Theorem pathfind_seam_valid (matrix : list (list num)) (path : list coord) :
  pathfind matrix = Ret (Some path) →
  length path = length matrix ∧
  map fst path = seq 0 (length matrix) ∧
  ∀ i a b, path !! i = Some a → path !! S i = Some b →
    fst b = S (fst a) ∧
    (Z.abs (Z.of_nat (snd b) - Z.of_nat (snd a)) ≤ 1)%Z.
Proof.
  intros Hp. destruct (pathfind_seam _ _ Hp) as (row0 & rest & -> & Hd & Hlen & Hhd & _).
  split; [done|]. split.
  - destruct path as [|a l]; [done|]. injection Hhd as ->.
    rewrite (diag_path_rows _ _ Hd), <- Hlen. reflexivity.
  - intros i a b Ha Hb. destruct (diag_path_lookup _ _ _ _ Hd Ha Hb) as [Hr Hc].
    split; [done|]. lia.
Qed.

(** C4. For a grid of width [W ≥ 1] the search starts from row 0, column
    [floor (W / 2)], with that cell's own energy as its distance, both in the
    distance table and in the one entry of the queue; a returned seam starts
    at that cell, and each of its steps goes one column to the left or to
    the right, never straight down. *)
Theorem pathfind_start_and_steps (row0 : list num) (rest : list (list num))
    (path : list coord) :
  row0 ≠ [] →
  pathfind (row0 :: rest) = Ret (Some path) →
  let matrix := row0 :: rest in
  let W := length row0 in
  let st0 := init matrix (length matrix) W in
  (∃ e0, row0 !! (W / 2) = Some e0 ∧
     queue st0 = [Entry 0 (W / 2) e0] ∧
     lookup2 (distances st0) 0 (W / 2) = Some e0) ∧
  pathfind matrix = search matrix (length matrix) W (2 * length matrix * W + 2) st0 ∧
  head path = Some (0, W / 2) ∧
  ∀ i a b, path !! i = Some a → path !! S i = Some b →
    snd b ≠ snd a ∧ (snd b = snd a + 1 ∨ snd b + 1 = snd a).
Proof.
  intros Hne Hp matrix W st0.
  destruct (pathfind_seam _ _ Hp) as (row0' & rest' & [= <- <-] & Hd & Hlen & Hhd & _).
  assert (HW : W / 2 < W).
  { apply Nat.div_lt; [|lia]. subst W. destruct row0; [done|simpl; lia]. }
  split; [|split; [done|split; [done|]]].
  - destruct (lookup_lt_is_Some_2 row0 (W / 2) HW) as [e0 He0].
    exists e0. split; [done|].
    subst st0. unfold init, startCol. cbv zeta.
    set (k := W / 2) in *.
    assert (Hat : at2 NaN matrix 0 k = e0).
    { change (default NaN (row0 !! k) = e0). by rewrite He0. }
    rewrite Hat. split; [done|]. apply lookup2_set2_eq.
    rewrite lookup2_fill2; [done|simpl; lia|done].
  - intros i a b Ha Hb. destruct (diag_path_lookup _ _ _ _ Hd Ha Hb) as [_ Hc]. lia.
Qed.

(** ** pathfind on grids of finite numbers *)

(** A grid of [H] rows of [W] finite numbers each. *)
Definition finite_grid (H W : nat) (matrix : list (list num)) : Prop :=
  shape H W matrix ∧ Forall (Forall is_fin) matrix.

Lemma finite_grid_at (H W : nat) (matrix : list (list num)) r c :
  finite_grid H W matrix → r < H → c < W → is_fin (at2 NaN matrix r c).
Proof.
  intros [Hsh Hfin] Hr Hc.
  destruct (proj2 (lookup2_is_Some H W matrix r c Hsh)) as [x Hx]; [done|].
  rewrite at2_lookup2, Hx. simpl. unfold lookup2 in Hx.
  destruct (matrix !! r) as [rw|] eqn:Hrw; [|done]. simpl in Hx.
  rewrite Forall_lookup in Hfin. specialize (Hfin _ _ Hrw).
  rewrite Forall_lookup in Hfin. by apply (Hfin c).
Qed.

Lemma finite_grid_dims (H W : nat) (row0 : list num) rest :
  finite_grid H W (row0 :: rest) → length (row0 :: rest) = H ∧ length row0 = W.
Proof.
  intros [[Hlen Hall] _]. split; [done|].
  by apply Forall_cons in Hall as [? _].
Qed.


(** ** pathfind on grids of non-negative numbers *)






(** ** Removing a seam from the buffer *)

(** A seam for a buffer of [W] by [H] pixels: one entry per row, top to
    bottom, every column in bounds. *)
Definition valid_seam (W H : nat) (path : list coord) : Prop :=
  map fst path = seq 0 H ∧ Forall (λ x, snd x < W) path.

(** Position [i] of the buffer lies in the 4-sample run of an entry. *)
Definition covered (offsets : list Z) (i : nat) : bool :=
  existsb (λ o, (o <=? Z.of_nat i)%Z && (Z.of_nat i <? o + 4)%Z) offsets.

(** What the specification asks of the seam remover, written as such: the
    samples of [l], which sit at positions [i], [i + 1], ... of the buffer,
    without those in the run of a seam entry, in their order. *)
Fixpoint keep_uncovered (offsets : list Z) (i : nat) (l : list Z) : list Z :=
  match l with
  | [] => []
  | x :: l' =>
      if covered offsets i then keep_uncovered offsets (S i) l'
      else x :: keep_uncovered offsets (S i) l'
  end.

(** Offsets in increasing order, four apart at least, between [lo] and [hi]. *)
Fixpoint spaced (lo : Z) (offsets : list Z) (hi : Z) : Prop :=
  match offsets with
  | [] => (lo ≤ hi)%Z
  | o :: rest => (lo ≤ o)%Z ∧ spaced (o + 4) rest hi
  end.

Lemma spaced_weaken lo lo' offsets hi :
  (lo' ≤ lo)%Z → spaced lo offsets hi → spaced lo' offsets hi.
Proof. destruct offsets; simpl; [lia|]. intros ? [? ?]. split; [lia|done]. Qed.

Lemma spaced_length lo offsets hi :
  spaced lo offsets hi → (lo + 4 * Z.of_nat (length offsets) ≤ hi)%Z.
Proof.
  revert lo. induction offsets as [|o rest IH]; simpl; intros lo; [lia|].
  intros [Hlo Hs]. specialize (IH _ Hs). lia.
Qed.

Lemma spaced_not_covered lo offsets hi i :
  spaced lo offsets hi → (Z.of_nat i < lo)%Z → covered offsets i = false.
Proof.
  revert lo. induction offsets as [|o rest IH]; simpl; intros lo; [done|].
  intros [Hlo Hs] Hi. rewrite (IH (o + 4)%Z) by (done || lia).
  destruct (Z.leb_spec o (Z.of_nat i)); [lia|done].
Qed.

Lemma keep_uncovered_app offsets i l1 l2 :
  keep_uncovered offsets i (l1 ++ l2) =
    keep_uncovered offsets i l1 ++ keep_uncovered offsets (i + length l1) l2.
Proof.
  revert i. induction l1 as [|x l1 IH]; intros i; simpl.
  - by rewrite Nat.add_0_r.
  - rewrite IH. replace (S i + length l1) with (i + S (length l1)) by lia.
    by destruct (covered offsets i).
Qed.

Lemma keep_uncovered_ext offsets offsets' i l :
  (∀ k, i ≤ k < i + length l → covered offsets k = covered offsets' k) →
  keep_uncovered offsets i l = keep_uncovered offsets' i l.
Proof.
  revert i. induction l as [|x l IH]; intros i H; simpl; [done|].
  rewrite (H i) by (simpl; lia). rewrite (IH (S i)); [done|].
  intros k Hk. apply H. simpl. lia.
Qed.

Lemma keep_uncovered_none i l : keep_uncovered [] i l = l.
Proof. revert i. induction l as [|x l IH]; intros i; simpl; [done|]. by rewrite IH. Qed.

Lemma keep_uncovered_all offsets i l :
  (∀ k, i ≤ k < i + length l → covered offsets k = true) →
  keep_uncovered offsets i l = [].
Proof.
  revert i. induction l as [|x l IH]; intros i H; simpl; [done|].
  rewrite (H i) by (simpl; lia). apply IH. intros k Hk. apply H. simpl. lia.
Qed.

Lemma splice_run (l : list Z) (o : Z) :
  (0 ≤ o)%Z → (o + 4 ≤ Z.of_nat (length l))%Z →
  splice l o 4 = take (Z.to_nat o) l ++ drop (Z.to_nat o + 4) l.
Proof.
  intros Ho Hl. unfold splice.
  destruct (Z.ltb_spec o 0); [lia|].
  rewrite (Z.min_l o) by lia. rewrite Z.max_l by lia. rewrite Z.min_l by lia.
  by replace (Z.to_nat (o + 4)) with (Z.to_nat o + 4) by lia.
Qed.

(** Splicing the runs out, last offset first, leaves the samples that are in
    no run, in their order. *)
Lemma splice_all_spec (offsets : list Z) (l : list Z) :
  spaced 0 offsets (Z.of_nat (length l)) →
  foldr (λ o newData, splice newData o 4) l offsets = keep_uncovered offsets 0 l ∧
  length (foldr (λ o newData, splice newData o 4) l offsets) + 4 * length offsets
    = length l.
Proof.
  revert l. cut (∀ lo (l : list Z), (0 ≤ lo)%Z →
    spaced lo offsets (Z.of_nat (length l)) →
    foldr (λ o newData, splice newData o 4) l offsets = keep_uncovered offsets 0 l ∧
    length (foldr (λ o newData, splice newData o 4) l offsets) + 4 * length offsets
      = length l).
  { intros H l. by apply H. }
  induction offsets as [|o rest IH]; intros lo l Hlo Hs.
  - simpl. rewrite keep_uncovered_none. split; [done|lia].
  - destruct Hs as [Ho Hs]. simpl foldr.
    destruct (IH (o + 4)%Z l) as [IHeq IHlen]; [lia|done|].
    pose proof (spaced_length _ _ _ Hs) as Hlen.
    set (n := Z.to_nat o).
    assert (Hcut : l = take n l ++ take 4 (drop n l) ++ drop (n + 4) l).
    { rewrite <- (drop_drop l 4 n), (take_drop 4 (drop n l)). by rewrite take_drop. }
    assert (Hn : length (take n l) = n) by (rewrite length_take; lia).
    assert (H4 : length (take 4 (drop n l)) = 4)
      by (rewrite length_take, length_drop; lia).
    assert (Hin : foldr (λ o newData, splice newData o 4) l rest =
                  (take n l ++ take 4 (drop n l)) ++
                  keep_uncovered rest (n + 4) (drop (n + 4) l)).
    { rewrite IHeq. rewrite Hcut at 1. rewrite app_assoc, keep_uncovered_app.
      rewrite length_app, Hn, H4. simpl. f_equal.
      rewrite (keep_uncovered_ext rest [] 0); [apply keep_uncovered_none|].
      intros k Hk. rewrite length_app, Hn, H4 in Hk.
      simpl. apply (spaced_not_covered (o + 4) rest _ k Hs). lia. }
    rewrite splice_run; [|lia|lia]. fold n. split.
    + rewrite Hin.
      rewrite <- app_assoc, take_app_length' by done.
      rewrite app_assoc, drop_app_length' by (rewrite length_app; lia).
      rewrite Hcut at 3. rewrite !keep_uncovered_app, Hn, H4. simpl.
      rewrite (keep_uncovered_ext (o :: rest) [] 0 (take n l)).
      2:{ intros k Hk. rewrite Hn in Hk. simpl.
          rewrite (spaced_not_covered (o + 4) rest _ k Hs) by lia.
          destruct (Z.leb_spec o (Z.of_nat k)); [lia|done]. }
      rewrite keep_uncovered_none.
      rewrite (keep_uncovered_all (o :: rest) n).
      2:{ intros k Hk. rewrite H4 in Hk. simpl.
          destruct (Z.leb_spec o (Z.of_nat k)); [|lia].
          destruct (Z.ltb_spec (Z.of_nat k) (o + 4)); [done|lia]. }
      simpl. f_equal. apply keep_uncovered_ext.
      intros k Hk. simpl.
      destruct (Z.ltb_spec (Z.of_nat k) (o + 4)); [lia|].
      by rewrite andb_false_r.
    + rewrite length_app, length_take, length_drop. simpl. lia.
Qed.

Lemma removeSeam_offsets data w path :
  removeSeam data w path =
    foldr (λ o newData, splice newData o 4) data (map (seam_offset w) path).
Proof. unfold removeSeam. induction path as [|a path IH]; simpl; [done|]. by rewrite IH. Qed.

Lemma valid_seam_spaced W path r n :
  map fst path = seq r n → Forall (λ x, snd x < W) path →
  spaced (Z.of_nat (r * W * 4)) (map (seam_offset (Z.of_nat W)) path)
         (Z.of_nat ((r + n) * W * 4)).
Proof.
  revert r n. induction path as [|[r' c] path IH]; intros r n Hrows Hcols.
  - destruct n; [|done]. simpl. lia.
  - destruct n as [|n]; [done|]. simpl in Hrows. injection Hrows as -> Hrows.
    apply Forall_cons in Hcols as [Hc Hcols]. simpl in Hc.
    simpl. split.
    + unfold seam_offset. simpl. nia.
    + apply (spaced_weaken (Z.of_nat (S r * W * 4))).
      * unfold seam_offset. simpl fst. simpl snd. nia.
      * replace (r + S n) with (S r + n) by lia. by apply IH.
Qed.

(** The seam remover on a well-formed buffer and a valid seam. *)
Lemma removeSeam_spec (data : list Z) (W H : nat) (path : list coord) :
  length data = W * H * 4 → valid_seam W H path →
  removeSeam data (Z.of_nat W) path
    = keep_uncovered (map (seam_offset (Z.of_nat W)) path) 0 data ∧
  length (removeSeam data (Z.of_nat W) path) = (W - 1) * H * 4.
Proof.
  intros Hlen [Hrows Hcols]. rewrite removeSeam_offsets.
  pose proof (valid_seam_spaced W path 0 H Hrows Hcols) as Hs.
  replace ((0 + H) * W * 4) with (length data) in Hs by lia.
  destruct (splice_all_spec _ _ Hs) as [Heq Hl]. split; [done|].
  rewrite length_map in Hl.
  assert (length path = H).
  { pose proof (length_map fst path) as HH. by rewrite Hrows, length_seq in HH. }
  assert (1 ≤ W ∨ H = 0) as [|].
  { destruct path as [|a path]; [simpl in *; lia|].
    apply Forall_cons in Hcols as [? _]. lia. }
  - nia.
  - nia.
Qed.

(** ** pathfind and getEnergyMatrix: errors and small grids *)




(** On a grid of one row the start cell is the seam. *)
Lemma pathfind_single_row (row0 : list num) :
  pathfind [row0] = Ret (Some [(0, length row0 / 2)]).
Proof.
  unfold pathfind. set (cols := length row0).
  replace (2 * length [row0] * cols + 2) with (S (2 * cols + 1)) by (simpl; lia).
  unfold init, startCol. set (k := cols / 2). simpl.
  rewrite at2_fill2. destruct (decide _); rewrite at2_fill2; by destruct (decide _).
Qed.

Lemma getEnergyMatrix_shape (sobelData : list Z) (image : Image) :
  (0 ≤ width image)%Z → (0 ≤ height image)%Z →
  ∃ matrix, getEnergyMatrix sobelData image = Ret matrix ∧
    shape (Z.to_nat (height image)) (Z.to_nat (width image)) matrix.
Proof.
  intros Hw Hh. unfold getEnergyMatrix.
  destruct (Z.ltb_spec (height image) 0) as [|_]; [lia|].
  destruct (Z.ltb_spec (width image) 0) as [|_]; [lia|].
  rewrite andb_false_r. eexists. split; [reflexivity|].
  apply energy_rows_spec; [apply shape_fill2|lia].
Qed.

Lemma getEnergyMatrix_cases (sobelData : list Z) (image : Image) :
  (getEnergyMatrix sobelData image = Throw RangeError ∧
     ((height image < 0)%Z ∨ (0 < height image)%Z ∧ (width image < 0)%Z)) ∨
  (∃ matrix, getEnergyMatrix sobelData image = Ret matrix ∧
     length matrix = Z.to_nat (height image)).
Proof.
  unfold getEnergyMatrix.
  destruct (Z.ltb_spec (height image) 0) as [|Hh]; [left; split; [done|lia]|].
  destruct (Z.ltb_spec 0 (height image)) as [Hh'|Hh'];
    destruct (Z.ltb_spec (width image) 0) as [Hw|Hw]; simpl.
  - left. split; [done|lia].
  - right. eexists. split; [done|].
    apply (energy_rows_spec _ _ _ (Z.to_nat (width image))); [apply shape_fill2|lia].
  - right. eexists. split; [done|].
    replace (Z.to_nat (height image)) with 0 by lia. done.
  - right. eexists. split; [done|].
    replace (Z.to_nat (height image)) with 0 by lia. done.
Qed.

(** ** carveSeam *)

Section CarveFacts.
Variable sobelFilter : Image → list Z.

Abbreviation carveSeam' := (carveSeam sobelFilter).


(** C7. When the seam search finds no seam the step fails, with a
    [TypeError], and the image object is as it was before the call: same
    buffer, same width. *)
Theorem carveSeam_no_seam_atomic (σ : store) (image : ref) (img : Image)
    (energyMap : list (list num)) :
  σ !! image = Some img →
  getEnergyMatrix (sobelFilter img) img = Ret energyMap →
  pathfind energyMap = Ret None →
  carveSeam' σ image = (Throw TypeError, σ) ∧
  (snd (carveSeam' σ image)) !! image = Some img.
Proof.
  intros Hσ Hm Hp. unfold carveSeam. rewrite Hσ, Hm, Hp. by split.
Qed.



(** *** The loop of carve *)



Lemma Qlt_bool_iff (a b : Q) : Qlt_bool a b = true ↔ (a < b)%Q.
Proof.
  unfold Qlt_bool. rewrite negb_true_iff. split.
  - intros H. apply Qnot_le_lt. intros Hle. apply Qle_bool_iff in Hle. congruence.
  - intros H. destruct (Qle_bool b a) eqn:E; [|done].
    apply Qle_bool_iff in E. exfalso. by apply (Qlt_not_le _ _ H).
Qed.


End CarveFacts.

(** ** Concrete runs *)

Definition zgrid (g : list (list Z)) : list (list num) := map (map Fin) g.

Definition grid3 : list (list num) := zgrid [[1; 2; 3]; [4; 1; 6]; [7; 8; 0]]%Z.
Definition seam3 : list coord := [(0, 1); (1, 0); (2, 1)].

Lemma pathfind_seam_valid_witness :
  pathfind grid3 = Ret (Some seam3) ∧
  length seam3 = length grid3 ∧
  map fst seam3 = seq 0 (length grid3) ∧
  ∀ i a b, seam3 !! i = Some a → seam3 !! S i = Some b →
    fst b = S (fst a) ∧
    (Z.abs (Z.of_nat (snd b) - Z.of_nat (snd a)) ≤ 1)%Z.
Proof.
  split; [vm_compute; reflexivity|].
  apply (pathfind_seam_valid grid3 seam3). vm_compute; reflexivity.
Defined.

Lemma pathfind_start_and_steps_witness :
  [Fin 1; Fin 2; Fin 3] ≠ [] ∧
  pathfind grid3 = Ret (Some seam3) ∧
  head seam3 = Some (0, 1) ∧
  ∀ i a b, seam3 !! i = Some a → seam3 !! S i = Some b →
    snd b ≠ snd a ∧ (snd b = snd a + 1 ∨ snd b + 1 = snd a).
Proof.
  split; [discriminate|]. split; [vm_compute; reflexivity|].
  pose proof (pathfind_start_and_steps [Fin 1; Fin 2; Fin 3]
                (zgrid [[4; 1; 6]; [7; 8; 0]]%Z) seam3) as H.
  destruct H as (_ & _ & Hhd & Hsteps);
    [discriminate | vm_compute; reflexivity |].
  split; [exact Hhd | exact Hsteps].
Defined.


Example cost_seam3 : cost grid3 seam3 = 14%Z.
Proof. reflexivity. Qed.




(** A queue with a tie: the two entries of distance 6 keep their order. *)
Definition queue3 : list entry :=
  [Entry 1 2 (Fin 8); Entry 2 1 (Fin 6); Entry 2 3 (Fin 6)].


Example sort_queue3 :
  sort queue3 = [Entry 2 1 (Fin 6); Entry 2 3 (Fin 6); Entry 1 2 (Fin 8)].
Proof. reflexivity. Qed.

(** A 2 by 2 gradient buffer with the largest samples: the first cell is
    [255 + 255 + 255]. *)
Definition sobel_max : list Z :=
  [255; 255; 255; 255; 0; 0; 0; 255; 1; 2; 3; 255; 10; 20; 30; 255]%Z.
Definition image_2x2 : Image := {| data := sobel_max; width := 2; height := 2 |}.

Lemma getEnergyMatrix_sums_witness :
  (0 ≤ width image_2x2)%Z ∧ (0 ≤ height image_2x2)%Z ∧
  Z.of_nat (length sobel_max) = (width image_2x2 * height image_2x2 * 4)%Z ∧
  ∃ matrix,
    getEnergyMatrix sobel_max image_2x2 = Ret matrix ∧
    shape (Z.to_nat (height image_2x2)) (Z.to_nat (width image_2x2)) matrix ∧
    ∀ y x, y < Z.to_nat (height image_2x2) → x < Z.to_nat (width image_2x2) →
      ∃ s0 s1 s2,
        sobel_max !! ((y * Z.to_nat (width image_2x2) + x) * 4) = Some s0 ∧
        sobel_max !! ((y * Z.to_nat (width image_2x2) + x) * 4 + 1) = Some s1 ∧
        sobel_max !! ((y * Z.to_nat (width image_2x2) + x) * 4 + 2) = Some s2 ∧
        lookup2 matrix y x = Some (Fin (s0 + s1 + s2)).
Proof.
  split; [simpl; lia|]. split; [simpl; lia|]. split; [reflexivity|].
  apply (getEnergyMatrix_sums sobel_max image_2x2); [simpl; lia | simpl; lia | reflexivity].
Defined.

Example getEnergyMatrix_image_2x2 :
  getEnergyMatrix sobel_max image_2x2 = Ret (zgrid [[765; 0]; [6; 60]]%Z).
Proof. vm_compute. reflexivity. Qed.

(** The gradient filter of the concrete runs: the buffer of the image
    itself. *)
Definition own_buffer : Image → list Z := data.

Definition image_4x2 : Image :=
  {| data := [1; 2; 3; 4; 5; 6; 7; 8; 11; 12; 13; 14; 15; 16; 17; 18]%Z;
     width := 2; height := 2 |}.


Example carveSeam_image_4x2 :
  carveSeam own_buffer [image_4x2] 0 =
    (Ret 0, [{| data := [1; 2; 3; 4; 15; 16; 17; 18]%Z; width := 1; height := 2 |}]).
Proof. vm_compute. reflexivity. Qed.

(** An image of one column and two rows: no seam is found. *)
Definition image_1x2 : Image :=
  {| data := [1; 2; 3; 4; 5; 6; 7; 8]%Z; width := 1; height := 2 |}.

Lemma carveSeam_no_seam_atomic_witness :
  [image_1x2] !! 0 = Some image_1x2 ∧
  getEnergyMatrix (own_buffer image_1x2) image_1x2 = Ret (zgrid [[6]; [18]]%Z) ∧
  pathfind (zgrid [[6]; [18]]%Z) = Ret None ∧
  carveSeam own_buffer [image_1x2] 0 = (Throw TypeError, [image_1x2]) ∧
  (snd (carveSeam own_buffer [image_1x2] 0)) !! 0 = Some image_1x2.
Proof.
  split; [reflexivity|]. split; [vm_compute; reflexivity|].
  split; [vm_compute; reflexivity|].
  apply (carveSeam_no_seam_atomic own_buffer [image_1x2] 0 image_1x2
           (zgrid [[6]; [18]]%Z)); vm_compute; reflexivity.
Defined.

(** A degenerate image (height 1) and a malformed one (17 samples for 2 by
    2 pixels): both are carved. *)
Definition image_2x1 : Image :=
  {| data := [1; 2; 3; 4; 5; 6; 7; 8]%Z; width := 2; height := 1 |}.







(** The loop reads the width of the image object in its condition at each
    turn, and the object is the one [carveSeam] narrows: for 50 percent of a
    width of 8 the step runs three times. *)
Definition image_8x1 : Image := {| data := replicate 32 7%Z; width := 8; height := 1 |}.

Example carve_image_8x1 :
  snd (carve own_buffer [image_8x1] 0 50) = 3 ∧
  width <$> (snd (fst (carve own_buffer [image_8x1] 0 50))) = [5%Z].
Proof. split; vm_compute; reflexivity. Qed.

(** * Further properties of the program *)

(** ** pathfind: the loop ends, and when it throws or finds nothing *)

Lemma search_fuel_mono matrix rows cols fuel st :
  search matrix rows cols fuel st ≠ OutOfFuel →
  ∀ fuel', fuel ≤ fuel' →
    search matrix rows cols fuel' st = search matrix rows cols fuel st.
Proof.
  revert st. induction fuel as [|fuel IH]; intros st Hne fuel' Hle; [done|].
  destruct fuel' as [|fuel']; [lia|]. simpl in *.
  destruct (sort (queue st)) as [|[r c d] q]; [done|].
  destruct (at2 false (visited st) r c).
  - apply IH; [done|lia].
  - destruct (r =? rows - 1); [done|]. apply IH; [done|lia].
Qed.

(** The two loops of [pathfind] end on every matrix: [2 * H * W + 1] turns
    of the search loop are enough, and any larger bound on the number of
    turns gives the same result. *)
Theorem pathfind_terminates (row0 : list num) (rest : list (list num)) (fuel : nat) :
  let matrix := row0 :: rest in
  2 * length matrix * length row0 + 2 ≤ fuel →
  search matrix (length matrix) (length row0) fuel
         (init matrix (length matrix) (length row0)) = pathfind matrix ∧
  pathfind matrix ≠ OutOfFuel.
Proof.
  intros matrix Hfuel. pose proof (pathfind_total matrix) as Htot.
  split; [|done]. by apply search_fuel_mono.
Qed.

Lemma pathfind_terminates_witness :
  2 * length grid3 * 3 + 2 ≤ 100 ∧
  search grid3 3 3 100 (init grid3 3 3) = pathfind grid3 ∧
  pathfind grid3 ≠ OutOfFuel.
Proof.
  split; [simpl; lia|].
  apply (pathfind_terminates [Fin 1; Fin 2; Fin 3]
           (zgrid [[4; 1; 6]; [7; 8; 0]]%Z) 100). simpl. lia.
Defined.


Lemma pathfind_narrow (row0 row1 : list num) (rest : list (list num)) :
  length row0 ≤ 1 → pathfind (row0 :: row1 :: rest) = Ret None.
Proof.
  intros Hc. unfold pathfind.
  set (matrix := row0 :: row1 :: rest). set (rows := length matrix).
  set (cols := length row0) in *.
  assert (Hrows : rows = S (S (length rest))) by done.
  assert (Hsc : startCol cols = 0).
  { unfold startCol. destruct cols as [|[|?]]; [done|done|lia]. }
  destruct (2 * rows * cols + 2) as [|[|fuel]] eqn:Hf; [lia|lia|].
  unfold init. rewrite Hsc.
  change (search matrix rows cols (S (S fuel)) ?st) with
    (match sort (queue st) with
     | [] => Ret None
     | e :: q =>
         let '(Entry r c d) := e in
         if at2 false (visited st) r c then
           search matrix rows cols (S fuel) (dequeue st q)
         else
           if r =? rows - 1 then finish rows (mark st r c q) r c
           else search matrix rows cols (S fuel)
                  (relax_all matrix rows cols r c d (mark st r c q))
     end).
  simpl sort. cbv beta iota zeta. simpl queue. simpl visited.
  rewrite at2_fill2.
  replace (if decide (0 < rows ∧ 0 < cols) then false else false) with false
    by (by case_decide).
  destruct (Nat.eqb_spec 0 (rows - 1)) as [|_]; [lia|].
  rewrite relax_all_eq. unfold right_of, left_of.
  rewrite decide_False by lia. rewrite decide_False by lia.
  reflexivity.
Qed.

(** On a grid of two or more rows whose first row has at most one cell, the
    start cell has no neighbour in bounds: no seam is found, whatever the
    cells hold. *)
Theorem pathfind_narrow_grid (row0 row1 : list num) (rest : list (list num)) :
  length row0 ≤ 1 → pathfind (row0 :: row1 :: rest) = Ret None.
Proof. apply pathfind_narrow. Qed.

Lemma pathfind_narrow_grid_witness :
  length [NaN] ≤ 1 ∧ pathfind ([NaN] :: [Fin 3] :: [[Infinity]]) = Ret None.
Proof.
  split; [simpl; lia|].
  apply (pathfind_narrow_grid [NaN] [Fin 3] [[Infinity]]). simpl. lia.
Defined.

(** A seam over a grid of [H] rows of [W ≥ 1] cells names existing cells
    only: its entry number [i] is in row [i] and in a column below [W]. *)
Theorem pathfind_cells_in_bounds (H W : nat) (matrix : list (list num))
    (path : list coord) :
  shape H W matrix → 1 ≤ W → pathfind matrix = Ret (Some path) →
  ∀ i r c, path !! i = Some (r, c) →
    r = i ∧ i < H ∧ c < W ∧ is_Some (lookup2 matrix r c).
Proof.
  intros Hsh HW Hp i r c Hi.
  destruct (pathfind_seam_in_bounds H W matrix path Hsh HW Hp) as [Hrows Hcols].
  assert (Hr : map fst path !! i = Some r).
  { change (map fst path) with (fst <$> path). rewrite list_lookup_fmap.
    unfold coord in *. by rewrite Hi. }
  rewrite Hrows in Hr. apply lookup_seq in Hr as [-> Hlt]. simpl.
  rewrite Forall_lookup in Hcols. specialize (Hcols i (i, c) Hi). simpl in Hcols.
  split; [done|]. split; [done|]. split; [done|].
  by apply (lookup2_is_Some H W).
Qed.

Lemma pathfind_cells_in_bounds_witness :
  shape 3 3 grid3 ∧ 1 ≤ 3 ∧ pathfind grid3 = Ret (Some seam3) ∧
  ∀ i r c, seam3 !! i = Some (r, c) →
    r = i ∧ i < 3 ∧ c < 3 ∧ is_Some (lookup2 grid3 r c).
Proof.
  assert (Hsh : shape 3 3 grid3) by (split; [reflexivity|repeat constructor]).
  assert (Hp : pathfind grid3 = Ret (Some seam3)) by (vm_compute; reflexivity).
  split; [exact Hsh|]. split; [lia|]. split; [exact Hp|].
  apply (pathfind_cells_in_bounds 3 3 grid3 seam3 Hsh); [lia|exact Hp].
Defined.

(** ** getEnergyMatrix: errors and buffers that are too short *)


(** A buffer that ends before the third sample of a pixel gives that cell
    the value [NaN]; no error is raised. *)
Theorem getEnergyMatrix_short_buffer (sobelData : list Z) (image : Image)
    (y x : nat) :
  (0 ≤ width image)%Z →
  y < Z.to_nat (height image) → x < Z.to_nat (width image) →
  length sobelData ≤ (y * Z.to_nat (width image) + x) * 4 + 2 →
  ∃ matrix, getEnergyMatrix sobelData image = Ret matrix ∧
    lookup2 matrix y x = Some NaN.
Proof.
  intros Hw Hy Hx Hlen. unfold getEnergyMatrix.
  destruct (Z.ltb_spec (height image) 0) as [|_]; [lia|].
  destruct (Z.ltb_spec (width image) 0) as [|_]; [lia|].
  rewrite andb_false_r.
  set (h := Z.to_nat (height image)) in *. set (wn := Z.to_nat (width image)) in *.
  destruct (energy_rows_spec sobelData (width image) h wn
              (fill2 h wn (Fin 0)) h (shape_fill2 _ _ _)) as [_ Hl]; [lia|].
  eexists. split; [reflexivity|]. rewrite Hl, decide_True by done.
  f_equal. unfold cell_sum.
  set (o := (Z.of_nat y * width image * 4 + Z.of_nat x * 4)%Z).
  assert (Ho : Z.to_nat (o + 2) = (y * wn + x) * 4 + 2) by (subst o wn; nia).
  assert (H2 : sample sobelData (o + 2) = NaN).
  { unfold sample. destruct (Z.ltb_spec (o + 2) 0); [done|].
    rewrite Ho. by rewrite lookup_ge_None_2. }
  rewrite H2.
  generalize (num_add (sample sobelData o) (sample sobelData (o + 1))). by intros [].
Qed.

Definition sobel_short : list Z := [1; 2; 3; 4; 5; 6]%Z.

Lemma getEnergyMatrix_short_buffer_witness :
  (0 ≤ width image_2x2)%Z ∧ 0 < Z.to_nat (height image_2x2) ∧
  1 < Z.to_nat (width image_2x2) ∧
  length sobel_short ≤ (0 * Z.to_nat (width image_2x2) + 1) * 4 + 2 ∧
  ∃ matrix, getEnergyMatrix sobel_short image_2x2 = Ret matrix ∧
    lookup2 matrix 0 1 = Some NaN.
Proof.
  split; [simpl; lia|]. split; [simpl; lia|]. split; [simpl; lia|].
  split; [simpl; lia|].
  apply (getEnergyMatrix_short_buffer sobel_short image_2x2 0 1); simpl; lia.
Defined.

(** ** carveSeam: what a step does to the image object *)

Section CarveMore.
Variable sobelFilter : Image → list Z.

(** A step that returns has changed, in place, the object it was given and
    returns that object: one column narrower, of the same height; no other
    object of the store is touched.  A step returns only for an image of a
    width of 0 or more and a height of 1 or more. *)
Theorem carveSeam_in_place (σ σ' : store) (image r : ref) :
  carveSeam sobelFilter σ image = (Ret r, σ') →
  r = image ∧
  ∃ img img', σ !! image = Some img ∧ σ' !! image = Some img' ∧
    width img' = (width img - 1)%Z ∧ height img' = height img ∧
    (0 ≤ width img)%Z ∧ (1 ≤ height img)%Z ∧
    length σ' = length σ ∧ ∀ j, j ≠ image → σ' !! j = σ !! j.
Proof.
  unfold carveSeam. destruct (σ !! image) as [img|] eqn:Hσ; [|done].
  destruct (getEnergyMatrix_cases (sobelFilter img) img) as [[-> _]|(m & Hm & Hl)]; [done|].
  rewrite Hm. destruct (pathfind m) as [[p|]| |] eqn:Hp; try done.
  intros [= <- <-]. split; [done|]. eexists img, _.
  split; [done|]. split.
  { apply list_lookup_insert_eq. by eapply lookup_lt_Some. }
  assert (Hne : m ≠ []) by (intros ->; done).
  assert (0 < length m) by (destruct m; [done|simpl; lia]).
  unfold getEnergyMatrix in Hm.
  destruct (Z.ltb_spec (height img) 0); [done|].
  repeat split; simpl; try done; try lia.
  - destruct (Z.ltb_spec 0 (height img)); destruct (Z.ltb_spec (width img) 0);
      simpl in Hm; try done; lia.
  - apply length_insert.
  - intros j Hj. by apply list_lookup_insert_ne.
Qed.

(** An image of two or more rows and of width 0 or 1 cannot be carved: the
    step throws a [TypeError], whatever the gradient filter returns, and the
    image is as it was. *)
Theorem carveSeam_narrow_image (σ : store) (image : ref) (img : Image) :
  σ !! image = Some img →
  (0 ≤ width img ≤ 1)%Z → (2 ≤ height img)%Z →
  carveSeam sobelFilter σ image = (Throw TypeError, σ).
Proof.
  intros Hσ Hw Hh. unfold carveSeam. rewrite Hσ.
  destruct (getEnergyMatrix_shape (sobelFilter img) img) as (m & -> & [Hlen Hall]);
    [lia..|].
  destruct m as [|row0 [|row1 rest]]; simpl in Hlen; try lia.
  apply Forall_cons in Hall as [Hrow0 _].
  rewrite pathfind_narrow; [done|]. rewrite Hrow0. lia.
Qed.

(** On an image of one row of [W ≥ 1] pixels the step removes the pixel of
    column [floor (W / 2)], whatever the energies are. *)
Theorem carveSeam_one_row (σ : store) (image : ref) (img : Image) (W : nat) :
  σ !! image = Some img →
  width img = Z.of_nat W → height img = 1%Z → 1 ≤ W →
  length (data img) = W * 4 →
  carveSeam sobelFilter σ image =
    (Ret image,
     <[image := {| data := take (W / 2 * 4) (data img)
                            ++ drop (W / 2 * 4 + 4) (data img);
                   width := (Z.of_nat W - 1)%Z; height := 1 |}]> σ).
Proof.
  intros Hσ Hw Hh HW Hlen. unfold carveSeam. rewrite Hσ.
  destruct (getEnergyMatrix_shape (sobelFilter img) img) as (m & -> & [Hl Hall]);
    [lia..|].
  rewrite Hh in Hl. destruct m as [|row0 [|? ?]]; try done.
  apply Forall_cons in Hall as [Hrow0 _]. rewrite Hw, Nat2Z.id in Hrow0.
  rewrite pathfind_single_row, Hrow0, Hw, Hh.
  assert (Hk : W / 2 < W) by (apply Nat.div_lt; lia).
  set (k := W / 2) in *.
  unfold removeSeam, seam_offset. simpl foldr. simpl fst. simpl snd.
  rewrite splice_run by lia.
  by replace (Z.to_nat (Z.of_nat 0 * Z.of_nat W * 4 + Z.of_nat k * 4)) with (k * 4) by lia.
Qed.
End CarveMore.

Lemma carveSeam_in_place_witness :
  carveSeam own_buffer [image_4x2] 0 =
    (Ret 0, [{| data := [1; 2; 3; 4; 15; 16; 17; 18]%Z; width := 1; height := 2 |}]) ∧
  0 = 0 ∧
  ∃ img img', [image_4x2] !! 0 = Some img ∧
    [{| data := [1; 2; 3; 4; 15; 16; 17; 18]%Z; width := 1; height := 2 |}] !! 0
      = Some img' ∧
    width img' = (width img - 1)%Z ∧ height img' = height img ∧
    (0 ≤ width img)%Z ∧ (1 ≤ height img)%Z ∧
    length [{| data := [1; 2; 3; 4; 15; 16; 17; 18]%Z; width := 1; height := 2 |}]
      = length [image_4x2] ∧
    ∀ j, j ≠ 0 →
      [{| data := [1; 2; 3; 4; 15; 16; 17; 18]%Z; width := 1; height := 2 |}] !! j
        = [image_4x2] !! j.
Proof.
  assert (H : carveSeam own_buffer [image_4x2] 0 =
    (Ret 0, [{| data := [1; 2; 3; 4; 15; 16; 17; 18]%Z; width := 1; height := 2 |}]))
    by (vm_compute; reflexivity).
  split; [exact H|].
  exact (carveSeam_in_place own_buffer [image_4x2] _ 0 0 H).
Defined.

Lemma carveSeam_narrow_image_witness :
  [image_1x2] !! 0 = Some image_1x2 ∧
  (0 ≤ width image_1x2 ≤ 1)%Z ∧ (2 ≤ height image_1x2)%Z ∧
  carveSeam own_buffer [image_1x2] 0 = (Throw TypeError, [image_1x2]).
Proof.
  split; [reflexivity|]. split; [simpl; lia|]. split; [simpl; lia|].
  apply (carveSeam_narrow_image own_buffer [image_1x2] 0 image_1x2);
    [reflexivity | simpl; lia | simpl; lia].
Defined.

Lemma carveSeam_one_row_witness :
  [image_2x1] !! 0 = Some image_2x1 ∧
  width image_2x1 = Z.of_nat 2 ∧ height image_2x1 = 1%Z ∧ 1 ≤ 2 ∧
  length (data image_2x1) = 2 * 4 ∧
  carveSeam own_buffer [image_2x1] 0 =
    (Ret 0,
     <[0 := {| data := take (2 / 2 * 4) (data image_2x1)
                        ++ drop (2 / 2 * 4 + 4) (data image_2x1);
               width := (Z.of_nat 2 - 1)%Z; height := 1 |}]> [image_2x1]).
Proof.
  split; [reflexivity|]. split; [reflexivity|]. split; [reflexivity|].
  split; [lia|]. split; [reflexivity|].
  apply (carveSeam_one_row own_buffer [image_2x1] 0 image_2x1 2);
    [reflexivity | reflexivity | reflexivity | lia | reflexivity].
Defined.

(** ** The seam remover, row by row *)

(** A row of the buffer without the four samples of the pixel in column [c]. *)
Definition drop_pixel (c : nat) (rw : list Z) : list Z :=
  take (c * 4) rw ++ drop (c * 4 + 4) rw.

(** The buffer cut into rows of [W] pixels, each without its seam pixel. *)
Fixpoint carve_rows (W : nat) (path : list coord) (data : list Z) : list Z :=
  match path with
  | [] => data
  | (_, c) :: path' =>
      drop_pixel c (take (W * 4) data) ++ carve_rows W path' (drop (W * 4) data)
  end.

Lemma keep_uncovered_single (o i : nat) (l : list Z) :
  i ≤ o → o + 4 ≤ i + length l →
  keep_uncovered [Z.of_nat o] i l = take (o - i) l ++ drop (o - i + 4) l.
Proof.
  intros Hi Hl. set (a := o - i).
  assert (Hcut : l = take a l ++ take 4 (drop a l) ++ drop (a + 4) l).
  { rewrite <- (drop_drop l 4 a), (take_drop 4 (drop a l)). by rewrite take_drop. }
  assert (Ha : length (take a l) = a) by (rewrite length_take; lia).
  assert (H4 : length (take 4 (drop a l)) = 4)
    by (rewrite length_take, length_drop; lia).
  rewrite Hcut at 1. rewrite !keep_uncovered_app, Ha, H4.
  rewrite (keep_uncovered_ext [Z.of_nat o] [] i (take a l)).
  2:{ intros k Hk. rewrite Ha in Hk. simpl.
      destruct (Z.leb_spec (Z.of_nat o) (Z.of_nat k)); [lia|done]. }
  rewrite keep_uncovered_none.
  rewrite (keep_uncovered_all [Z.of_nat o] (i + a)).
  2:{ intros k Hk. rewrite H4 in Hk. simpl.
      destruct (Z.leb_spec (Z.of_nat o) (Z.of_nat k)); [|lia].
      destruct (Z.ltb_spec (Z.of_nat k) (Z.of_nat o + 4)); [done|lia]. }
  rewrite (keep_uncovered_ext [Z.of_nat o] [] (i + a + 4)).
  2:{ intros k Hk. simpl.
      destruct (Z.ltb_spec (Z.of_nat k) (Z.of_nat o + 4)); [lia|].
      by rewrite andb_false_r. }
  by rewrite keep_uncovered_none.
Qed.

Lemma keep_uncovered_rows (W : nat) (path : list coord) :
  ∀ r0 n (l : list Z),
    map fst path = seq r0 n → Forall (λ x, snd x < W) path →
    length l = n * W * 4 →
    keep_uncovered (map (seam_offset (Z.of_nat W)) path) (r0 * W * 4) l
      = carve_rows W path l.
Proof.
  induction path as [|[r c] path IH]; intros r0 n l Hrows Hcols Hlen.
  - simpl. apply keep_uncovered_none.
  - destruct n as [|n]; [done|]. simpl in Hrows. injection Hrows as -> Hrows.
    apply Forall_cons in Hcols as [Hc Hcols]. simpl in Hc.
    pose proof (valid_seam_spaced W path (S r0) n Hrows Hcols) as Hsp.
    assert (Ho : seam_offset (Z.of_nat W) (r0, c) = Z.of_nat (r0 * W * 4 + c * 4)).
    { unfold seam_offset. simpl. lia. }
    assert (HR : length (take (W * 4) l) = W * 4) by (rewrite length_take; nia).
    simpl map. simpl carve_rows. rewrite Ho.
    rewrite <- (take_drop (W * 4) l) at 1. rewrite keep_uncovered_app, HR. f_equal.
    + rewrite (keep_uncovered_ext _ [Z.of_nat (r0 * W * 4 + c * 4)]).
      * rewrite keep_uncovered_single by lia. unfold drop_pixel.
        by replace (r0 * W * 4 + c * 4 - r0 * W * 4) with (c * 4) by lia.
      * intros k Hk. rewrite HR in Hk. simpl.
        rewrite (spaced_not_covered _ _ _ k Hsp) by lia. done.
    + replace (r0 * W * 4 + W * 4) with (S r0 * W * 4) by lia.
      rewrite <- (IH (S r0) n); [|done|done|rewrite length_drop; lia].
      apply keep_uncovered_ext. intros k Hk. simpl.
      destruct (Z.ltb_spec (Z.of_nat k) (Z.of_nat (r0 * W * 4 + c * 4) + 4)); [lia|].
      by rewrite andb_false_r.
Qed.

Lemma carve_rows_row (W : nat) (path : list coord) :
  ∀ (l : list Z) j r c,
    Forall (λ x, snd x < W) path → length l = length path * W * 4 →
    path !! j = Some (r, c) →
    take ((W - 1) * 4) (drop (j * (W - 1) * 4) (carve_rows W path l))
      = drop_pixel c (take (W * 4) (drop (j * W * 4) l)).
Proof.
  induction path as [|[r0 c0] path IH]; intros l j r c Hcols Hlen Hj; [done|].
  apply Forall_cons in Hcols as [Hc Hcols]. simpl in Hc, Hlen.
  assert (HP : length (drop_pixel c0 (take (W * 4) l)) = (W - 1) * 4).
  { unfold drop_pixel. rewrite length_app, length_take, length_drop, length_take. nia. }
  simpl carve_rows. destruct j as [|j]; simpl in Hj.
  - injection Hj as -> ->. simpl. rewrite !drop_0. by rewrite take_app_length'.
  - replace (S j * (W - 1) * 4) with
      (length (drop_pixel c0 (take (W * 4) l)) + j * (W - 1) * 4) by lia.
    rewrite drop_app_add. rewrite (IH _ j r c); [|done|rewrite length_drop; lia|done].
    rewrite drop_drop. by replace (W * 4 + j * W * 4) with (S j * W * 4) by lia.
Qed.

(** After the seam is removed from a buffer of [W] by [H] pixels, row [r] of
    the narrower buffer is row [r] of the input without the four samples of
    the seam's pixel in that row; everything else of the row is kept in
    place and order. *)
Theorem removeSeam_row (data : list Z) (W H : nat) (path : list coord)
    (r r' c : nat) :
  length data = W * H * 4 → valid_seam W H path → path !! r = Some (r', c) →
  take ((W - 1) * 4) (drop (r * (W - 1) * 4) (removeSeam data (Z.of_nat W) path))
    = take (c * 4) (take (W * 4) (drop (r * W * 4) data))
      ++ drop (c * 4 + 4) (take (W * 4) (drop (r * W * 4) data)).
Proof.
  intros Hlen Hv Hr.
  destruct (removeSeam_spec data W H path Hlen Hv) as [Heq _].
  destruct Hv as [Hrows Hcols].
  assert (HH : length path = H).
  { pose proof (length_map fst path) as HH. by rewrite Hrows, length_seq in HH. }
  rewrite Heq.
  pose proof (keep_uncovered_rows W path 0 H data Hrows Hcols) as Hk.
  simpl in Hk. rewrite Hk by lia.
  rewrite (carve_rows_row W path data r r' c Hcols); [done| |done].
  rewrite HH. lia.
Qed.

Lemma removeSeam_row_witness :
  length (data image_4x2) = 2 * 2 * 4 ∧ valid_seam 2 2 [(0, 1); (1, 0)] ∧
  [(0, 1); (1, 0)] !! 1 = Some (1, 0) ∧
  take ((2 - 1) * 4)
       (drop (1 * (2 - 1) * 4) (removeSeam (data image_4x2) (Z.of_nat 2) [(0, 1); (1, 0)]))
    = take (0 * 4) (take (2 * 4) (drop (1 * 2 * 4) (data image_4x2)))
      ++ drop (0 * 4 + 4) (take (2 * 4) (drop (1 * 2 * 4) (data image_4x2))).
Proof.
  assert (Hv : valid_seam 2 2 [(0, 1); (1, 0)]).
  { split; [reflexivity|]. repeat constructor; simpl; lia. }
  split; [reflexivity|]. split; [exact Hv|]. split; [reflexivity|].
  apply (removeSeam_row (data image_4x2) 2 2 [(0, 1); (1, 0)] 1 1 0);
    [reflexivity | exact Hv | reflexivity].
Defined.

(** ** Steps on well-formed images, and the loop of carve *)

From Stdlib Require Import Lqa.

(** An image of [W] by [H] pixels with a buffer of the length that goes
    with them. *)
Definition well_formed (W H : nat) (img : Image) : Prop :=
  width img = Z.of_nat W ∧ height img = Z.of_nat H ∧
  length (data img) = W * H * 4.

Lemma getEnergyMatrix_finite (sobelData : list Z) (img : Image) (W H : nat) :
  width img = Z.of_nat W → height img = Z.of_nat H →
  length sobelData = W * H * 4 →
  ∃ m, getEnergyMatrix sobelData img = Ret m ∧ finite_grid H W m.
Proof.
  intros Hw Hh Hlen. unfold getEnergyMatrix.
  destruct (Z.ltb_spec (height img) 0) as [|_]; [lia|].
  destruct (Z.ltb_spec (width img) 0) as [|_]; [lia|].
  rewrite andb_false_r. rewrite Hw, Hh, !Nat2Z.id.
  destruct (energy_rows_spec sobelData (Z.of_nat W) H W
              (fill2 H W (Fin 0)) H (shape_fill2 _ _ _)) as [Hs Hl]; [lia|].
  eexists. split; [reflexivity|]. split; [exact Hs|].
  apply Forall_lookup. intros y rw Hrw. apply Forall_lookup. intros x v Hv.
  assert (Hy : y < H).
  { destruct Hs as [<- _]. by eapply lookup_lt_Some. }
  assert (Hx : x < W).
  { destruct Hs as [_ Hall]. rewrite Forall_lookup in Hall.
    rewrite <- (Hall _ _ Hrw). by eapply lookup_lt_Some. }
  specialize (Hl y x). rewrite decide_True in Hl by done.
  unfold lookup2 in Hl. rewrite Hrw in Hl. simpl in Hl. rewrite Hv in Hl.
  injection Hl as ->. unfold cell_sum, sample.
  set (o := (Z.of_nat y * Z.of_nat W * 4 + Z.of_nat x * 4)%Z).
  assert (Hin : (y * W + x) * 4 + 3 < length sobelData) by nia.
  assert (Ho : Z.to_nat o = (y * W + x) * 4) by (subst o; nia).
  assert (Hp : (0 ≤ o)%Z) by (subst o; nia).
  destruct (Z.ltb_spec o 0) as [|_]; [lia|].
  destruct (Z.ltb_spec (o + 1) 0) as [|_]; [lia|].
  destruct (Z.ltb_spec (o + 2) 0) as [|_]; [lia|].
  destruct (lookup_lt_is_Some_2 sobelData (Z.to_nat o)) as [s0 ->]; [lia|].
  destruct (lookup_lt_is_Some_2 sobelData (Z.to_nat (o + 1))) as [s1 ->]; [lia|].
  destruct (lookup_lt_is_Some_2 sobelData (Z.to_nat (o + 2))) as [s2 ->]; [lia|].
  by eexists.
Qed.

Lemma finite_grid_has_seam (H W : nat) (matrix : list (list num)) :
  finite_grid H W matrix → 1 ≤ H → 2 ≤ W ∨ H = 1 ∧ 1 ≤ W →
  ∃ path, pathfind matrix = Ret (Some path).
Proof.
  intros Hgrid HH HW. destruct matrix as [|row0 rest].
  { destruct Hgrid as [[Hlen _] _]. simpl in Hlen. lia. }
  destruct (finite_grid_dims _ _ _ _ Hgrid) as [Hrows Hcols].
  pose proof (pathfind_total (row0 :: rest)) as Htot.
  unfold pathfind in *. rewrite Hrows, Hcols in *.
  assert (HW1 : 0 < W) by lia.
  assert (Hfin : ∀ r c, r < H → c < W → is_fin (at2 NaN (row0 :: rest) r c)).
  { intros. by eapply finite_grid_at. }
  destruct (search_cases (row0 :: rest) H W (live_except H W None))
    with (fuel := 2 * H * W + 2) (st := init (row0 :: rest) H W)
    as [Hout|[[_ (st & Hlive & Hempty)]|(st & e & q & Hlive & Hs & Hv & Hr & Hres)]].
  - intros st e q Hlive Hs Hseen. by eapply live_skip.
  - intros st e q Hlive Hs _ Hrow. by apply live_expand.
  - apply live_init; [done..|lia].
  - done.
  - exfalso. apply (live_queue_nonempty H W HW1 st); try done; lia.
  - destruct (sort_head_elem _ _ _ Hs) as [He _].
    pose proof (lv_wf _ _ _ _ Hlive) as Hwf.
    destruct (finish_spec H W st (row e) (col e) q Hwf
                (wf_queue _ _ _ Hwf e He) Hr) as (path & Hf & _).
    exists path. by rewrite Hres.
Qed.

Section CarveWellFormed.
Variable sobelFilter : Image → list Z.
(** The gradient filter returns a buffer of the shape of the image's. *)
Hypothesis Hfilter : ∀ img, length (sobelFilter img) = length (data img).

Lemma carveSeam_step (σ : store) (image : ref) (img : Image) (W H : nat) :
  σ !! image = Some img → well_formed W H img →
  1 ≤ H → 2 ≤ W ∨ H = 1 ∧ 1 ≤ W →
  ∃ img', carveSeam sobelFilter σ image = (Ret image, <[image := img']> σ) ∧
    well_formed (W - 1) H img'.
Proof.
  intros Hσ (Hw & Hh & Hlen) HH HW.
  destruct (getEnergyMatrix_finite (sobelFilter img) img W H Hw Hh) as (m & Hm & Hgrid).
  { by rewrite Hfilter. }
  destruct (finite_grid_has_seam H W m Hgrid HH HW) as (path & Hp).
  destruct (pathfind_seam_in_bounds H W m path (proj1 Hgrid) ltac:(lia) Hp) as [Hr Hc].
  destruct (removeSeam_spec (data img) W H path Hlen (conj Hr Hc)) as [_ Hl].
  unfold carveSeam. rewrite Hσ, Hm, Hp. eexists. split; [reflexivity|].
  split; [simpl; lia|]. split; [done|]. simpl. by rewrite Hw.
Qed.

(** A step on a well-formed image of [W] by [H] pixels, [H ≥ 1] and
    [W ≥ 2] (or [W ≥ 1] when [H = 1]), succeeds when the gradient filter
    returns a buffer of the length of the image's, and leaves a well-formed
    image of [W - 1] by [H] pixels. *)
Theorem carveSeam_keeps_well_formed (σ : store) (image : ref) (img : Image)
    (W H : nat) :
  σ !! image = Some img → well_formed W H img →
  1 ≤ H → 2 ≤ W ∨ H = 1 ∧ 1 ≤ W →
  ∃ img', carveSeam sobelFilter σ image = (Ret image, <[image := img']> σ) ∧
    well_formed (W - 1) H img'.
Proof. apply carveSeam_step. Qed.
End CarveWellFormed.



Section CarveLoop.
Variable sobelFilter : Image → list Z.
Hypothesis Hfilter : ∀ img, length (sobelFilter img) = length (data img).
Variable image : ref.
Variable amount : Q.
Variables W H : nat.
Hypothesis Hamount0 : (0 <= amount)%Q.
Hypothesis Hamount1 : (amount <= 100)%Q.
Hypothesis HH : 1 ≤ H.
Hypothesis HW : 2 ≤ W.


End CarveLoop.

(** A percentage of 0 or less makes no step: the image is returned as it
    is, whatever it holds. *)
Theorem carve_nothing (sobelFilter : Image → list Z) (σ : store) (image : ref)
    (img : Image) (amount : Q) :
  σ !! image = Some img → (0 ≤ width img)%Z → (amount <= 0)%Q →
  carve sobelFilter σ image amount = (Ret image, σ, 0).
Proof.
  intros Hσ Hw Ha. unfold carve. rewrite Hσ.
  replace (Z.to_nat (width img) + 3) with (S (Z.to_nat (width img) + 2)) by lia.
  simpl. rewrite Hσ.
  destruct (Qlt_bool _ _) eqn:Htest; [|done].
  apply Qlt_bool_iff in Htest. exfalso.
  assert (Hf : (amount / 100 <= 0)%Q).
  { apply Qle_shift_div_r; [reflexivity|]. by rewrite Qmult_0_l. }
  rewrite Zle_Qle in Hw. change (inject_Z 0) with 0%Q in *.
  assert (0 <= inject_Z (width img) * (- (amount / 100)))%Q
    by (apply Qmult_le_0_compat; lra).
  lra.
Qed.

Lemma carveSeam_keeps_well_formed_witness :
  (∀ img, length (own_buffer img) = length (data img)) ∧
  [image_4x2] !! 0 = Some image_4x2 ∧ well_formed 2 2 image_4x2 ∧
  1 ≤ 2 ∧ (2 ≤ 2 ∨ 2 = 1 ∧ 1 ≤ 2) ∧
  ∃ img', carveSeam own_buffer [image_4x2] 0 = (Ret 0, <[0 := img']> [image_4x2]) ∧
    well_formed (2 - 1) 2 img'.
Proof.
  assert (Hwf : well_formed 2 2 image_4x2) by (by repeat split).
  split; [done|]. split; [reflexivity|]. split; [exact Hwf|].
  split; [lia|]. split; [left; lia|].
  apply (carveSeam_keeps_well_formed own_buffer (λ _, eq_refl) [image_4x2] 0
           image_4x2 2 2 eq_refl Hwf); [lia|left; lia].
Defined.

(** An image of 8 by 2 pixels. *)
Definition image_8x2 : Image :=
  {| data := (λ i, Z.of_nat (i * 7 mod 50)) <$> seq 0 64; width := 8; height := 2 |}.


Example carve_image_8x2 : snd (carve own_buffer [image_8x2] 0 50) = 3.
Proof. vm_compute. reflexivity. Qed.

Lemma carve_nothing_witness :
  [image_4x2] !! 0 = Some image_4x2 ∧ (0 ≤ width image_4x2)%Z ∧ (0 <= 0)%Q ∧
  carve own_buffer [image_4x2] 0 0 = (Ret 0, [image_4x2], 0).
Proof.
  split; [reflexivity|]. split; [simpl; lia|]. split; [discriminate|].
  apply (carve_nothing own_buffer [image_4x2] 0 image_4x2 0);
    [reflexivity | simpl; lia | discriminate].
Defined.


